(** * clyngor: the [Answers] stream transformer and the concept decoder

    A shallow embedding of [clyngor/answers.py] (class [Answers]) and of the
    [ConceptList] constructor of [clyngor/test/test_decoder.py], together with
    the properties of their behaviour.

    Python values are embedded in one universe [value]; frozensets and
    dictionaries are finite sets and finite maps; an exception is [None] in
    the option monad; the generator returned by [Answers.__iter__] is an
    explicit state machine stepping over the shared [Answers] object. *)

From Stdlib Require Import ZArith String Ascii List DecimalString DecimalPos.
From stdpp Require Import base option list sorting countable strings gmap fin_maps fin_sets.

Local Open Scope Z_scope.
Local Open Scope string_scope.

(** ** Python values *)

(** The terms a solver hands over (integers, strings, nested tuples) and the
    objects [Answers] builds from them: tuples, and [as_pyasp.Atom] objects
    with their two fields. *)
#[warnings="-register-all"]
Inductive value : Type :=
  | VInt (n : Z)
  | VStr (s : string)
  | VTuple (items : list value)
  | VAtom (predicate : string) (arguments : value).

Section value_induction.
Variable P : value → Prop.
Hypothesis Hint_ : ∀ n, P (VInt n).
Hypothesis Hstr : ∀ s, P (VStr s).
Hypothesis Htuple : ∀ items, Forall P items → P (VTuple items).
Hypothesis Hatom : ∀ p a, P a → P (VAtom p a).

Fixpoint value_nested_ind (v : value) : P v :=
  match v with
  | VInt n => Hint_ n
  | VStr s => Hstr s
  | VTuple items =>
      Htuple items
        ((fix go (l : list value) : Forall P l :=
            match l with
            | [] => Forall_nil_2 P
            | x :: l' => Forall_cons_2 P x l' (value_nested_ind x) (go l')
            end) items)
  | VAtom p a => Hatom p a (value_nested_ind a)
  end.
End value_induction.

(** Values travel through [gen_tree] to become countable, hence usable as
    members of a [gset]. *)
Fixpoint value_to_tree (v : value) : gen_tree (Z + string) :=
  match v with
  | VInt n => GenLeaf (inl n)
  | VStr s => GenLeaf (inr s)
  | VTuple items => GenNode 0 (map value_to_tree items)
  | VAtom p a => GenNode 1 [GenLeaf (inr p); value_to_tree a]
  end.

Fixpoint tree_to_value (t : gen_tree (Z + string)) : value :=
  match t with
  | GenLeaf (inl n) => VInt n
  | GenLeaf (inr s) => VStr s
  | GenNode 0 ts => VTuple (map tree_to_value ts)
  | GenNode _ [GenLeaf (inr p); t'] => VAtom p (tree_to_value t')
  | GenNode _ _ => VTuple []
  end.

Lemma tree_to_value_to_tree (v : value) : tree_to_value (value_to_tree v) = v.
Proof.
  induction v as [n|s|items IH|p a IH] using value_nested_ind; simpl; try done.
  - f_equal. induction IH as [|x l Hx _ IHl]; simpl; [done|]. by rewrite Hx, IHl.
  - by rewrite IH.
Qed.

#[global] Instance value_eq_dec : EqDecision value.
Proof.
  refine (λ x y, cast_if (decide (value_to_tree x = value_to_tree y))).
  - abstract (rewrite <-(tree_to_value_to_tree x), <-(tree_to_value_to_tree y); congruence).
  - abstract congruence.
Defined.

#[global] Instance value_countable : Countable value :=
  inj_countable' value_to_tree tree_to_value tree_to_value_to_tree.

#[global] Instance value_inhabited : Inhabited value := populate (VTuple []).

(** ** Comparison of values

    [py_lt a b] is Python's [a < b]; [None] is the [TypeError] raised for
    operands of unrelated types.  Tuples compare as CPython's
    [tuplerichcompare] does: the first position where the items are not equal
    decides, and a proper prefix is smaller.  Strings compare by code point. *)

Definition lex_lt {A} `{EqDecision A} (lt : A → A → option bool) :
    list A → list A → option bool :=
  fix go xs ys :=
    match xs, ys with
    | [], [] => Some false
    | [], _ :: _ => Some true
    | _ :: _, [] => Some false
    | x :: xs', y :: ys' => if decide (x = y) then go xs' ys' else lt x y
    end.

(** Modelled from the spec: the module [as_pyasp] is not part of the sources
    at hand; the spec describes its [Atom] as a lightweight value object
    exposing the fields [predicate] and [arguments] (the constructor [VAtom],
    two atoms being equal when their fields are) and says nothing of an order
    between two such objects.  What [<] does between them is therefore a
    parameter of the whole development: [atom_lt p x q y] is the outcome of
    [Atom(p, x) < Atom(q, y)], [None] when it raises [TypeError] as it does
    for objects that define no order.  Where it answers it is asked to be
    consistent, as any order handed to [sorted] has to be. *)
Class AtomOrder : Type := {
  atom_lt : string → value → string → value → option bool;
  atom_lt_asym p x q y :
    atom_lt p x q y = Some true → atom_lt q y p x = Some false;
  atom_lt_total p x q y :
    atom_lt p x q y = Some false →
    (p = q ∧ x = y) ∨ atom_lt q y p x = Some true;
  atom_lt_trans p x q y r z :
    atom_lt p x q y = Some true → atom_lt q y r z = Some true →
    atom_lt p x r z = Some true
}.

(** [Atom] objects that define no order: [<] raises whatever the operands. *)
Definition no_atom_order : AtomOrder.
Proof. by refine {| atom_lt := λ _ _ _ _, None |}. Defined.

Section clyngor.
Context `{ao : AtomOrder}.

Fixpoint py_lt (a b : value) : option bool :=
  match a, b with
  | VInt m, VInt n => Some (m <? n)%Z
  | VStr s, VStr t => Some (String.ltb s t)
  | VTuple xs, VTuple ys => lex_lt py_lt xs ys
  | VAtom p x, VAtom q y => atom_lt p x q y
  | _, _ => None
  end.

Definition comparable (a b : value) : bool :=
  match py_lt a b with Some _ => true | None => false end.

(** [a <= b] for values that compare. *)
Definition py_le (a b : value) : Prop := py_lt a b = Some true ∨ a = b.

(** ** [sorted]

    Python's [sorted] is a comparison sort using [<] only, and only between
    items at two different places of its input.  On a list whose items all
    compare with each other it returns the one ordered permutation; when two
    items do not compare, no comparison sort can place them without asking
    [<] of that very pair (nothing lies strictly between two values that do
    not compare), so [TypeError] is raised. *)
Fixpoint insort (x : value) (l : list value) : list value :=
  match l with
  | [] => [x]
  | y :: l' =>
      match py_lt x y with
      | Some true => x :: y :: l'
      | _ => y :: insort x l'
      end
  end.

Definition sort_values (l : list value) : list value := foldr insort [] l.

Fixpoint all_comparable (l : list value) : bool :=
  match l with
  | [] => true
  | x :: l' => forallb (comparable x) l' && all_comparable l'
  end.

Definition sorted (it : list value) : option (list value) :=
  if all_comparable it then Some (sort_values it) else None.

(** Two items at different places of [l] that [<] does not order. *)
Definition unordered_pair (l : list value) : Prop :=
  ∃ i j x y, (i < j)%nat ∧ l !! i = Some x ∧ l !! j = Some y ∧ py_lt x y = None.

(** ** Containers

    What [Answers] yields: a [frozenset] or a (sorted) [tuple] of items, or a
    dictionary from predicate names to such containers. *)
Inductive container : Type :=
  | FrozenSet (s : gset value)
  | Tuple (l : list value).

Inductive answer_set : Type :=
  | Flat (c : container)
  | Mapping (m : gmap string container).

Definition members (c : container) : gset value :=
  match c with
  | FrozenSet s => s
  | Tuple l => list_to_set l
  end.

(** Iterating a [set] or a [frozenset] visits every member once, in an order
    the language does not fix (it follows the hashes).  A [hash_order] is one
    such choice of order; the model is parametrised by it, and what
    [Answers] yields is shown below not to depend on it. *)
Record hash_order : Type := HashOrder {
  iter_set : gset value → list value;
  iter_set_perm : ∀ s, iter_set s ≡ₚ elements s
}.

Definition iterate (ho : hash_order) (c : container) : list value :=
  match c with
  | FrozenSet s => iter_set ho s
  | Tuple l => l
  end.

Definition elements_order : hash_order :=
  {| iter_set := elements; iter_set_perm := λ s, reflexivity (elements s) |}.

Definition reverse_order : hash_order :=
  {| iter_set := λ s, reverse (elements s);
     iter_set_perm := λ s, reverse_Permutation (elements s) |}.

(** ** The [Answers] object *)

(** A raw atom is a pair [(predicate, args)]; a raw answer set is an iterable
    of them, embedded as the list of atoms in iteration order. *)
Definition raw_atom : Type := string * list value.
Definition raw_answer_set : Type := list raw_atom.

(** [_answers] is the iterator [iter(answers)]: what is left of the source. *)
Record Answers : Type := MkAnswers {
  _answers : list raw_answer_set;
  _first_arg_only : bool;
  _group_atoms : bool;
  _as_pyasp : bool;
  _sorted : bool
}.

Definition __init__ (answers : list raw_answer_set) : Answers :=
  {| _answers := answers; _first_arg_only := false; _group_atoms := false;
     _as_pyasp := false; _sorted := false |}.

Definition first_arg_only (self : Answers) : Answers :=
  {| _answers := _answers self; _first_arg_only := true;
     _group_atoms := _group_atoms self; _as_pyasp := _as_pyasp self;
     _sorted := _sorted self |}.

Definition by_predicate (self : Answers) : Answers :=
  {| _answers := _answers self; _first_arg_only := _first_arg_only self;
     _group_atoms := true; _as_pyasp := _as_pyasp self;
     _sorted := _sorted self |}.

Definition as_pyasp (self : Answers) : Answers :=
  {| _answers := _answers self; _first_arg_only := _first_arg_only self;
     _group_atoms := _group_atoms self; _as_pyasp := true;
     _sorted := _sorted self |}.

(** The property [Answers.sorted]; the plain name is taken by the builtin. *)
Definition sorted_ (self : Answers) : Answers :=
  {| _answers := _answers self; _first_arg_only := _first_arg_only self;
     _group_atoms := _group_atoms self; _as_pyasp := _as_pyasp self;
     _sorted := true |}.

(** The source iterator advanced past its first item. *)
Definition advance (self : Answers) (rest : list raw_answer_set) : Answers :=
  {| _answers := rest; _first_arg_only := _first_arg_only self;
     _group_atoms := _group_atoms self; _as_pyasp := _as_pyasp self;
     _sorted := _sorted self |}.

(** ** The body of [Answers.__iter__] *)

(** The Python pair [(pred, args)]. *)
Definition py_pair (pred : string) (args : value) : value :=
  VTuple [VStr pred; args].

(** [for pred, args in ...]: unpacking an item of the answer set. *)
Definition unpack_atom (item : value) : option (string * value) :=
  match item with
  | VTuple [VStr pred; args] => Some (pred, args)
  | _ => None
  end.

(** [sorted_tuple = lambda it: tuple(sorted(it))] *)
Definition sorted_tuple (it : list value) : option container :=
  Tuple <$> sorted it.

Definition frozenset (it : list value) : option container :=
  Some (FrozenSet (list_to_set it)).

(** [builder = sorted_tuple if self._sorted else frozenset] *)
Definition builder (srt : bool) : list value → option container :=
  if srt then sorted_tuple else frozenset.

(** [args[0] if args else ()] *)
Definition first_or_empty (args : list value) : value :=
  match args with
  | x :: _ => x
  | [] => VTuple []
  end.

(** One round of the inner loop: [mapping[pred].add(args)] on a
    [defaultdict(set)], with [args] wrapped first when [_as_pyasp] is set. *)
Definition group_step (pyasp : bool) (mapping : gmap string (gset value))
    (item : value) : option (gmap string (gset value)) :=
  '(pred, args) ← unpack_atom item;
  let args := if pyasp then VAtom pred args else args in
  Some (<[pred := default ∅ (mapping !! pred) ∪ {[args]}]> mapping).

Definition group_loop (pyasp : bool) (items : list value) :
    option (gmap string (gset value)) :=
  foldl (λ acc item, mapping ← acc; group_step pyasp mapping item) (Some ∅) items.

(** [{pred: builder(args) for pred, args in mapping.items()}] *)
Definition build_mapping (ho : hash_order) (srt : bool)
    (mapping : gmap string (gset value)) : option (gmap string container) :=
  list_to_map <$>
    mapM (λ '(pred, args), c ← builder srt (iter_set ho args); Some (pred, c))
         (map_to_list mapping).

(** [as_pyasp.Atom] applied to every unpacked [atom] of [answer_set]. *)
Definition wrap_atoms (items : list value) : option (list value) :=
  mapM (λ atom, '(pred, args) ← unpack_atom atom; Some (VAtom pred args)) items.

(** The body of the [for] loop for one raw answer set: [srt] is the flag
    [builder] was chosen with, the other flags are read from [self] while
    the body runs (nothing else runs before the [yield], so [_as_pyasp],
    read at every round of the inner loop, has one value throughout). *)
Definition loop_body (ho : hash_order) (srt : bool) (self : Answers)
    (raw : raw_answer_set) : option answer_set :=
  answer_set ←
    (if _first_arg_only self
     then builder srt ((λ '(pred, args), py_pair pred (first_or_empty args)) <$> raw)
     else builder srt ((λ '(pred, args), py_pair pred (VTuple args)) <$> raw));
  if _group_atoms self then
    mapping ← group_loop (_as_pyasp self) (iterate ho answer_set);
    Mapping <$> build_mapping ho srt mapping
  else if _as_pyasp self then
    atoms ← wrap_atoms (iterate ho answer_set);
    Flat <$> builder srt atoms
  else Some (Flat answer_set).

(** ** The generator

    [Answers.__iter__] is a generator function: calling it runs nothing.  The
    first [next] evaluates [builder] and enters the loop; every [next] pulls
    one raw answer set from the shared iterator [self._answers], runs the loop
    body and suspends at [yield]. *)
Inductive generator : Type :=
  | GenCreated
  | GenSuspended (srt : bool)
  | GenClosed.

Inductive outcome : Type :=
  | Yield (a : answer_set)
  | StopIteration
  | Raised.

Definition __iter__ (self : Answers) : generator := GenCreated.

Definition resume (ho : hash_order) (srt : bool) (self : Answers) :
    outcome * generator * Answers :=
  match _answers self with
  | [] => (StopIteration, GenClosed, self)
  | raw :: rest =>
      match loop_body ho srt self raw with
      | Some a => (Yield a, GenSuspended srt, advance self rest)
      | None => (Raised, GenClosed, advance self rest)
      end
  end.

(** [next(g)] for a generator [g] of [self]. *)
Definition gen_next (ho : hash_order) (g : generator) (self : Answers) :
    outcome * generator * Answers :=
  match g with
  | GenCreated => resume ho (_sorted self) self
  | GenSuspended srt => resume ho srt self
  | GenClosed => (StopIteration, GenClosed, self)
  end.

(** [Answers.__next__]: [next(iter(self))]. *)
Definition __next__ (ho : hash_order) (self : Answers) : outcome * Answers :=
  let '(o, _, self') := gen_next ho (__iter__ self) self in (o, self').

(** A traversal, as [list(g)] or a [for] loop performs it: [next] until the
    generator stops or raises.  The result holds the answer sets yielded,
    whether the traversal ended by an exception, and the object afterwards. *)
Fixpoint consume (ho : hash_order) (fuel : nat) (g : generator) (self : Answers) :
    option (list answer_set * bool * Answers) :=
  match fuel with
  | O => None
  | S fuel' =>
      match gen_next ho g self with
      | (Yield a, g', self') =>
          '(l, raised, final) ← consume ho fuel' g' self';
          Some (a :: l, raised, final)
      | (StopIteration, _, self') => Some ([], false, self')
      | (Raised, _, self') => Some ([], true, self')
      end
  end.

Definition traverse (ho : hash_order) (self : Answers) :
    option (list answer_set * bool * Answers) :=
  consume ho (S (length (_answers self))) (__iter__ self) self.

(** A client driving one traversal and touching the configuration
    properties in between. *)
Inductive toggle : Type :=
  | FirstArgOnly
  | ByPredicate
  | AsPyasp
  | Sorted.

Definition set_toggle (t : toggle) (self : Answers) : Answers :=
  match t with
  | FirstArgOnly => first_arg_only self
  | ByPredicate => by_predicate self
  | AsPyasp => as_pyasp self
  | Sorted => sorted_ self
  end.

Inductive action : Type :=
  | Pull
  | Set_ (t : toggle).



(** The outcomes of the pulls of [acts], in order. *)
Fixpoint run (ho : hash_order) (acts : list action) (g : generator)
    (self : Answers) : list outcome :=
  match acts with
  | [] => []
  | Pull :: acts' =>
      let '(o, g', self') := gen_next ho g self in o :: run ho acts' g' self'
  | Set_ t :: acts' => run ho acts' g (set_toggle t self)
  end.


(** ** What the loop body is expected to produce *)

(** The representation of an atom's arguments: [args[0] if args else ()]
    under [first_arg_only], [tuple(args)] otherwise. *)
Definition arg_repr (first : bool) (args : list value) : value :=
  if first then first_or_empty args else VTuple args.

(** The item an atom becomes in the first container built. *)
Definition item_of (first : bool) (atom : raw_atom) : value :=
  py_pair atom.1 (arg_repr first atom.2).

(** An element of a bucket: the representation, wrapped when asked. *)
Definition wrap (pyasp : bool) (pred : string) (args : value) : value :=
  if pyasp then VAtom pred args else args.

(** An element of a flat answer set. *)
Definition element (pyasp : bool) (pred : string) (args : value) : value :=
  if pyasp then VAtom pred args else py_pair pred args.

(** The container [builder] makes: an ordered tuple or a set. *)
Definition shaped (srt : bool) (c : container) : Prop :=
  if srt then ∃ l, c = Tuple l ∧ StronglySorted py_le l
  else ∃ s, c = FrozenSet s.

(** What [mapping] holds once [items] went through the grouping loop. *)
Definition groups (pyasp : bool) (items : list value)
    (mapping : gmap string (gset value)) : Prop :=
  ∀ p, match mapping !! p with
       | None => ∀ a, py_pair p a ∉ items
       | Some s => (∃ a, py_pair p a ∈ items) ∧
                   ∀ v, v ∈ s ↔ ∃ a, py_pair p a ∈ items ∧ v = wrap pyasp p a
       end.

(** The relation between a raw answer set and the answer set yielded for it
    under the flags of [self], [srt] being the flag [builder] was chosen
    with. *)
Definition transformed (srt : bool) (self : Answers) (raw : raw_answer_set)
    (out : answer_set) : Prop :=
  if _group_atoms self then
    ∃ m, out = Mapping m ∧
      (∀ p, p ∈ dom m ↔ ∃ args, (p, args) ∈ raw) ∧
      ∀ p c, m !! p = Some c →
        shaped srt c ∧
        (∀ l, c = Tuple l → NoDup l) ∧
        ∀ v, v ∈ members c ↔
             ∃ args, (p, args) ∈ raw ∧
                     v = wrap (_as_pyasp self) p (arg_repr (_first_arg_only self) args)
  else
    ∃ c, out = Flat c ∧ shaped srt c ∧
      ∀ v, v ∈ members c ↔
           ∃ p args, (p, args) ∈ raw ∧
                     v = element (_as_pyasp self) p (arg_repr (_first_arg_only self) args).

(** The pure reading of a traversal of [src] by one generator: the answer
    sets yielded, whether an exception ended it, and what it left of [src]. *)
Fixpoint yields (ho : hash_order) (srt : bool) (self : Answers)
    (src : list raw_answer_set) : list answer_set * bool * list raw_answer_set :=
  match src with
  | [] => ([], false, [])
  | raw :: rest =>
      match loop_body ho srt self raw with
      | Some a => let '(l, raised, remaining) := yields ho srt self rest in
                  (a :: l, raised, remaining)
      | None => ([], true, rest)
      end
  end.

(** ** The relations the claims are stated with *)

(** Under [first_arg_only] alone: the answer set holds the pair of the
    predicate with the first argument, or with [()], of every atom. *)
Definition first_args_of (raw : raw_answer_set) (out : answer_set) : Prop :=
  ∃ c, out = Flat c ∧
    (∀ v, v ∈ members c ↔
          ∃ p args, (p, args) ∈ raw ∧
            v = py_pair p (match args with x :: _ => x | [] => VTuple [] end)) ∧
    (∀ p x rest, (p, x :: rest) ∈ raw → py_pair p x ∈ members c) ∧
    (∀ q, (q, []) ∈ raw → py_pair q (VTuple []) ∈ members c) ∧
    (∀ q, (∀ args, (q, args) ∉ raw) → ∀ a, py_pair q a ∉ members c).

(** Under [as_pyasp]: the [Atom] objects sit in the buckets of the mapping
    when atoms are grouped, and are the members of the answer set itself
    when they are not. *)
Definition atoms_wrapped (self : Answers) (raw : raw_answer_set)
    (out : answer_set) : Prop :=
  if _group_atoms self then
    ∃ m, out = Mapping m ∧
      (∀ p, p ∈ dom m ↔ ∃ args, (p, args) ∈ raw) ∧
      ∀ p c, m !! p = Some c →
        ∀ v, v ∈ members c ↔
             ∃ args, (p, args) ∈ raw ∧
                     v = VAtom p (arg_repr (_first_arg_only self) args)
  else
    ∃ c, out = Flat c ∧
      ∀ v, v ∈ members c ↔
           ∃ p args, (p, args) ∈ raw ∧
                     v = VAtom p (arg_repr (_first_arg_only self) args).

(** How many raw answer sets a traversal took from the source. *)
Definition pulled (outs : list answer_set) (raised : bool) : nat :=
  length outs + (if raised then 1 else 0).

(** Every container of the answer set is of the kind [builder] makes. *)
Definition containers_shaped (srt : bool) (out : answer_set) : Prop :=
  match out with
  | Flat c => shaped srt c
  | Mapping m => ∀ p c, m !! p = Some c → shaped srt c
  end.

(** ** The decoder of [test_decoder.py] *)

(** [int(v)], line 27 of [test_decoder.py].  An integer is returned as it
    is.  A string is read as a decimal numeral the way [int] reads ASCII
    text: blanks (the characters 9 to 13 and the space) around it are
    skipped, one sign may come first, and the digits that follow may be
    separated by single underscores; any other string raises [ValueError].
    Strings are taken as ASCII here: a character above 127 raises, although
    [int] also reads the decimal digits and skips the blanks of other
    scripts; the limit that recent interpreters put on the number of digits
    is left out.  A tuple raises [TypeError], and so is an [Atom] object
    taken to do. *)
Definition py_isspace (c : ascii) : bool :=
  let n := nat_of_ascii c in
  (Nat.leb 9 n && Nat.leb n 13) || Nat.eqb n 32.

Definition digit_value (c : ascii) : option Z :=
  let n := nat_of_ascii c in
  if Nat.leb 48 n && Nat.leb n 57 then Some (Z.of_nat (n - 48)) else None.

Fixpoint skip_blanks (s : string) : string :=
  match s with
  | String c s' => if py_isspace c then skip_blanks s' else s
  | EmptyString => s
  end.

Definition all_blank (s : string) : bool :=
  match skip_blanks s with
  | EmptyString => true
  | String _ _ => false
  end.

(** The digits of a numeral: [acc] is the value read so far and
    [after_digit] tells whether the character read last was a digit, which
    an underscore and the end of the numeral require. *)
Fixpoint read_digits (acc : Z) (after_digit : bool) (s : string) : option Z :=
  match s with
  | EmptyString => if after_digit then Some acc else None
  | String c s' =>
      match digit_value c with
      | Some d => read_digits (10 * acc + d) true s'
      | None =>
          if after_digit && Ascii.eqb c "_" then read_digits acc false s'
          else if after_digit && all_blank s then Some acc
          else None
      end
  end.

Definition int_of_str (s : string) : option Z :=
  match skip_blanks s with
  | String c s' =>
      if Ascii.eqb c "-" then Z.opp <$> read_digits 0 false s'
      else if Ascii.eqb c "+" then read_digits 0 false s'
      else read_digits 0 false (String c s')
  | EmptyString => None
  end.

Definition py_int (v : value) : option Z :=
  match v with
  | VInt n => Some n
  | VStr s => int_of_str s
  | VTuple _ | VAtom _ _ => None
  end.

(** [frozenset(arg for nb, arg in rows if nb == id)]: every row unpacks into
    two items, or the unpacking raises. *)
Fixpoint select_by_id (id : Z) (rows : list (list value)) : option (list value) :=
  match rows with
  | [] => Some []
  | [nb; arg] :: rows' =>
      rest ← select_by_id id rows';
      Some (if decide (nb = VInt id) then arg :: rest else rest)
  | _ :: _ => None
  end.

(** The class [ConceptList]; [__eq__] compares the three fields. *)
Record ConceptList : Type := MkConceptList {
  id : Z;
  extent : gset value;
  intent : gset value
}.

(** [ConceptList.__init__(self, concept:1, extent:all, intent:all)] *)
Definition ConceptList__init__ (concept : list value)
    (extent intent : list (list value)) : option ConceptList :=
  c0 ← head concept;
  id ← py_int c0;
  ext ← select_by_id id extent;
  int ← select_by_id id intent;
  Some {| id := id; extent := list_to_set ext; intent := list_to_set int |}.

(** The annotation of a constructor parameter: [1] or [all]. *)
Inductive arity : Type :=
  | One
  | All.

(** What a parameter receives: the arguments of one atom, or the arguments
    of every matching atom. *)
Inductive argument : Type :=
  | Single (args : list value)
  | Every (rows : list (list value)).

Record decoder (T : Type) : Type := MkDecoder {
  parameters : list (string * arity);
  construct : list argument → option T
}.
Arguments MkDecoder {T} _ _.
Arguments parameters {T} _.
Arguments construct {T} _ _.

Definition ConceptList_decoder : decoder ConceptList :=
  MkDecoder [("concept", One); ("extent", All); ("intent", All)]
    (λ arguments,
       match arguments with
       | [Single concept; Every extent; Every intent] =>
           ConceptList__init__ concept extent intent
       | _ => None
       end).

Definition atoms_named (name : string) (atoms : raw_answer_set) : list (list value) :=
  snd <$> filter (λ atom, atom.1 = name) atoms.

(** Modelled from the spec: the function [clyngor.decode] (module
    [clyngor.decoder]) is not part of the sources at hand, only its test is.
    Following the spec's section on the predicate-to-object decoder: a
    decoder with an exactly-one parameter groups the atoms of its
    predicates by their leading argument, the group key; a decoder without
    one takes all its atoms as a single group.  Once the atoms of the answer
    set are all seen, each group gives one construction: an exactly-one
    parameter receives the arguments of the one atom of its predicate in the
    group, an all parameter those of every such atom.  A group in which an
    exactly-one parameter does not find exactly one atom is a failure of
    that group ([None]) and of no other.  Atoms of other predicates are
    ignored. *)
Definition is_keyed {T} (d : decoder T) : bool :=
  existsb (λ param, match param.2 with One => true | All => false end)
          (parameters d).

Definition declared {T} (d : decoder T) (atom : raw_atom) : bool :=
  bool_decide (atom.1 ∈ (parameters d).*1).

Definition group_keys {T} (d : decoder T) (atoms : raw_answer_set) : list value :=
  remove_dups (omap (λ atom, head atom.2) (filter (λ atom, declared d atom) atoms)).

Definition group_of (key : value) (atoms : raw_answer_set) : raw_answer_set :=
  filter (λ atom, head atom.2 = Some key) atoms.

Definition argument_for (group : raw_answer_set) (param : string * arity) :
    option argument :=
  match param.2 with
  | One =>
      match atoms_named param.1 group with
      | [args] => Some (Single args)
      | _ => None
      end
  | All => Some (Every (atoms_named param.1 group))
  end.

Definition construct_group {T} (d : decoder T) (group : raw_answer_set) : option T :=
  arguments ← mapM (argument_for group) (parameters d);
  construct d arguments.

Definition decode_with {T} (d : decoder T) (atoms : raw_answer_set) :
    list (option T) :=
  if is_keyed d
  then (λ key, construct_group d (group_of key atoms)) <$> group_keys d atoms
  else [construct_group d atoms].

Definition decode {T} (decoders : list (decoder T)) (atoms : raw_answer_set) :
    list (option T) :=
  decoders ≫= λ d, decode_with d atoms.

(** ** Concrete inputs *)

(** Two flat answer sets over [q()] and [p(x,y,z)]; a source whose single
    answer set holds [p(2)] and [p(1)], to be grouped and sorted; a source
    delivering [p(a,b)] twice; the atoms of the first concept of
    [ASP_LIST_CONCEPTS]. *)
Definition first_arg_example : Answers :=
  __init__ [[("q", []); ("p", [VStr "x"; VStr "y"; VStr "z"])]].

Definition sorted_example : Answers :=
  sorted_ (by_predicate (__init__ [[("p", [VInt 2]); ("p", [VInt 1])]])).


Definition concept_zero : raw_answer_set :=
  [("concept", [VInt 0]);
   ("extent", [VInt 0; VStr "a"]); ("extent", [VInt 0; VStr "b"]);
   ("intent", [VInt 0; VStr "c"]); ("intent", [VInt 0; VStr "d"])].

Definition example_atoms : raw_answer_set :=
  [("q", []); ("p", [VInt 2; VInt 5]); ("p", [VInt 1; VInt 7]);
   ("p", [VInt 2; VInt 6])].

Definition with_flags (first group pyasp srt : bool) : Answers :=
  {| _answers := []; _first_arg_only := first; _group_atoms := group;
     _as_pyasp := pyasp; _sorted := srt |}.

(** ** Clients of [Answers], and what they observe *)

#[global] Instance toggle_eq_dec : EqDecision toggle.
Proof. solve_decision. Defined.

(** What pulling [raw] gives under the flags of [self]: the answer set
    yielded, or the exception of the loop body. *)
Definition outcome_of (ho : hash_order) (srt : bool) (self : Answers)
    (raw : raw_answer_set) : outcome :=
  match loop_body ho srt self raw with
  | Some a => Yield a
  | None => Raised
  end.

(** A client calling [next(answers)] [n] times on the object itself. *)
Fixpoint next_times (ho : hash_order) (n : nat) (self : Answers) :
    list outcome * Answers :=
  match n with
  | O => ([], self)
  | S n' =>
      let '(o, self') := __next__ ho self in
      let '(os, final) := next_times ho n' self' in
      (o :: os, final)
  end.

(** The member an atom becomes in a flat answer set. *)
Definition member_of (self : Answers) (atom : raw_atom) : value :=
  element (_as_pyasp self) atom.1 (arg_repr (_first_arg_only self) atom.2).

(** [l] increases strictly for [<]. *)
Definition strictly_increasing (l : list value) : Prop :=
  StronglySorted (λ a b, py_lt a b = Some true) l.

(** ** What [sorted] delivers, and when it cannot *)

(** The container built first, from the pairs of the atoms (the answer set
    itself when atoms are neither grouped nor wrapped): under [sorted] the
    tuple of all the pairs in increasing order, otherwise their frozenset. *)
Definition first_container_of (srt : bool) (self : Answers)
    (raw : raw_answer_set) (c : container) : Prop :=
  if srt
  then ∃ l, c = Tuple l ∧ l ≡ₚ item_of (_first_arg_only self) <$> raw ∧
            StronglySorted py_le l
  else c = FrozenSet (list_to_set (item_of (_first_arg_only self) <$> raw)).

(** What is yielded for [raw], [srt] being the flag [builder] was chosen
    with.  When atoms are grouped the value yielded is the dictionary: its
    keys are the predicates of the pairs of the first container, and the
    bucket of a key holds exactly the elements made from these pairs, as a
    strictly increasing tuple under [sorted].  When they are not, it is a
    container of one member for every atom: the first container itself, or
    the one built anew from the [Atom] objects. *)
Definition delivered (srt : bool) (self : Answers) (raw : raw_answer_set)
    (out : answer_set) : Prop :=
  ∃ c, first_container_of srt self raw c ∧
    if _group_atoms self then
      ∃ m, out = Mapping m ∧
        (∀ p, p ∈ dom m ↔ ∃ a, py_pair p a ∈ members c) ∧
        ∀ p bucket, m !! p = Some bucket →
          (if srt then ∃ l, bucket = Tuple l ∧ strictly_increasing l
           else ∃ s, bucket = FrozenSet s) ∧
          ∀ v, v ∈ members bucket ↔
               ∃ a, py_pair p a ∈ members c ∧ v = wrap (_as_pyasp self) p a
    else if _as_pyasp self then
      if srt
      then ∃ l, out = Flat (Tuple l) ∧ l ≡ₚ member_of self <$> raw ∧
                StronglySorted py_le l
      else out = Flat (FrozenSet (list_to_set (member_of self <$> raw)))
    else out = Flat c.

(** Under [sorted], what keeps the loop body from sorting [raw]: two atoms
    of one predicate whose argument representations differ and are not
    ordered by [<]; or, when atoms are wrapped, two [Atom] objects that are
    sorted together (those of one bucket when atoms are grouped, all of them
    otherwise) and are not ordered by [<]. *)
Definition unsortable (self : Answers) (raw : raw_answer_set) : Prop :=
  (∃ p args args',
     (p, args) ∈ raw ∧ (p, args') ∈ raw ∧
     arg_repr (_first_arg_only self) args ≠ arg_repr (_first_arg_only self) args' ∧
     py_lt (arg_repr (_first_arg_only self) args)
           (arg_repr (_first_arg_only self) args') = None) ∨
  (_as_pyasp self = true ∧
   if _group_atoms self
   then ∃ p args args',
          (p, args) ∈ raw ∧ (p, args') ∈ raw ∧
          arg_repr (_first_arg_only self) args
            ≠ arg_repr (_first_arg_only self) args' ∧
          atom_lt p (arg_repr (_first_arg_only self) args)
                  p (arg_repr (_first_arg_only self) args') = None
   else unordered_pair (member_of self <$> raw)).

(** A source whose first answer set cannot be sorted and whose second can. *)
Definition unsortable_then_fine : Answers :=
  sorted_ (__init__ [[("q", [VInt 1]); ("q", [VStr "a"])]; [("p", [])]]).

(** ** The other methods of the decoder classes of [test_decoder.py] *)

(** [frozenset(arg for arg, in rows)]: every row unpacks into one item, or
    the unpacking raises. *)
Fixpoint select_single (rows : list (list value)) : option (list value) :=
  match rows with
  | [] => Some []
  | [arg] :: rows' => rest ← select_single rows'; Some (arg :: rest)
  | _ :: _ => None
  end.

(** [ConceptGen.__init__(self, extent:all, intent:all)]; the object is a
    [ConceptList] by inheritance, of [id] 0. *)
Definition ConceptGen__init__ (extent intent : list (list value)) :
    option ConceptList :=
  ext ← select_single extent;
  int ← select_single intent;
  Some {| id := 0; extent := list_to_set ext; intent := list_to_set int |}.

(** [str(n)] of an integer. *)
Definition py_str_int (n : Z) : string := NilZero.string_of_int (Z.to_int n).

(** [sep.join(items)]: [TypeError] unless every item is a string. *)
Fixpoint py_join (sep : string) (items : list value) : option string :=
  match items with
  | [] => Some ""
  | VStr s :: items' =>
      match items' with
      | [] => Some s
      | _ :: _ => rest ← py_join sep items'; Some (s ++ sep ++ rest)
      end
  | _ :: _ => None
  end.

(** [ConceptList.__repr__]: the members of both sets sorted and joined by
    commas, between braces, after the [id]. *)
Definition ConceptList__repr__ (ho : hash_order) (self : ConceptList) :
    option string :=
  ext ← sorted (iter_set ho (extent self));
  ext_joined ← py_join "," ext;
  int ← sorted (iter_set ho (intent self));
  int_joined ← py_join "," int;
  Some ("<" ++ py_str_int (id self) ++ ": {" ++ ext_joined ++ "} × {"
            ++ int_joined ++ "}>").


(** ** Order theory of [py_lt] *)

Lemma string_compare_refl (s : string) : String.compare s s = Eq.
Proof.
  pose proof (String.compare_antisym s s) as H.
  destruct (String.compare s s); simpl in H; congruence.
Qed.

Lemma string_ltb_irrefl (s : string) : String.ltb s s = false.
Proof. unfold String.ltb. by rewrite string_compare_refl. Qed.

Lemma string_ltb_asym (s t : string) :
  String.ltb s t = true → String.ltb t s = false.
Proof.
  unfold String.ltb. rewrite (String.compare_antisym t s).
  by destruct (String.compare s t).
Qed.

Lemma string_ltb_total (s t : string) :
  String.ltb s t = false → s = t ∨ String.ltb t s = true.
Proof.
  unfold String.ltb. rewrite (String.compare_antisym t s).
  destruct (String.compare s t) eqn:E; simpl; intros; try done; auto.
  left. by apply String.compare_eq_iff.
Qed.

Lemma string_ltb_le (s t : string) : String.ltb s t = true → String.le s t.
Proof.
  unfold String.le, String.ltb, String.leb. by destruct (String.compare s t).
Qed.

Lemma string_ltb_trans (s t u : string) :
  String.ltb s t = true → String.ltb t u = true → String.ltb s u = true.
Proof.
  intros Hst Htu.
  assert (String.le s u) as Hsu.
  { transitivity t; by apply string_ltb_le. }
  destruct (String.ltb s u) eqn:E; [done|].
  apply string_ltb_total in E as [->|E].
  - apply string_ltb_asym in Hst. congruence.
  - apply string_ltb_le in E. assert (s = u) as -> by (by apply (anti_symm String.le)).
    apply string_ltb_asym in Hst. congruence.
Qed.

Section lex_order.
Context {A : Type} `{EqDecision A} (lt : A → A → option bool).

Lemma lex_lt_irrefl (xs : list A) : lex_lt lt xs xs = Some false.
Proof. induction xs as [|x xs IH]; simpl; [done|]. by rewrite decide_True. Qed.

Lemma lex_lt_asym (xs : list A) :
  Forall (λ x, ∀ y, lt x y = Some true → lt y x = Some false) xs →
  ∀ ys, lex_lt lt xs ys = Some true → lex_lt lt ys xs = Some false.
Proof.
  induction 1 as [|x xs Hx _ IH]; intros [|y ys]; simpl; try done.
  destruct (decide (x = y)) as [->|Hne].
  - rewrite decide_True by done. apply IH.
  - rewrite decide_False by done. apply Hx.
Qed.

Lemma lex_lt_total (xs : list A) :
  Forall (λ x, ∀ y, lt x y = Some false → x = y ∨ lt y x = Some true) xs →
  ∀ ys, lex_lt lt xs ys = Some false → xs = ys ∨ lex_lt lt ys xs = Some true.
Proof.
  induction 1 as [|x xs Hx _ IH]; intros [|y ys]; simpl; try done; auto.
  destruct (decide (x = y)) as [->|Hne].
  - rewrite decide_True by done. intros [->|?]%IH; auto.
  - rewrite decide_False by done. intros [?|?]%Hx; [done|auto].
Qed.

Lemma lex_lt_trans (xs : list A) :
  Forall (λ x, ∀ y, lt x y = Some true → lt y x = Some false) xs →
  Forall (λ x, ∀ y z, lt x y = Some true → lt y z = Some true →
                      lt x z = Some true) xs →
  ∀ ys zs, lex_lt lt xs ys = Some true → lex_lt lt ys zs = Some true →
           lex_lt lt xs zs = Some true.
Proof.
  intros Hasym Htrans. revert Hasym.
  induction Htrans as [|x xs Hx _ IH]; intros Hasym [|y ys] [|z zs];
    simpl; try done.
  apply Forall_cons in Hasym as [Hax Hasym].
  destruct (decide (x = y)) as [->|Hxy].
  - destruct (decide (y = z)) as [->|Hyz]; [by apply IH|done].
  - destruct (decide (y = z)) as [->|Hyz].
    + by rewrite decide_False by done.
    + intros Hlt1 Hlt2. destruct (decide (x = z)) as [->|Hxz].
      * apply Hax in Hlt1. congruence.
      * by apply (Hx y z).
Qed.
End lex_order.

Lemma py_lt_asym (a b : value) : py_lt a b = Some true → py_lt b a = Some false.
Proof.
  revert b. induction a as [m|s|xs IH|p x IH] using value_nested_ind;
    intros [n|t|ys|q y]; simpl; try done.
  - intros [= H]. f_equal. lia.
  - intros [= H]. f_equal. by apply string_ltb_asym.
  - by apply lex_lt_asym.
  - apply atom_lt_asym.
Qed.

Lemma py_lt_total (a b : value) :
  py_lt a b = Some false → a = b ∨ py_lt b a = Some true.
Proof.
  revert b. induction a as [m|s|xs IH|p x IH] using value_nested_ind;
    intros [n|t|ys|q y]; simpl; try done.
  - intros [= H]. destruct (decide (m = n)) as [->|?]; [by left|right]. f_equal. lia.
  - intros [= [->|H]%string_ltb_total]; [by left|right; by f_equal].
  - intros H. destruct (lex_lt_total py_lt xs IH ys H) as [->|?]; auto.
  - intros [[-> ->]|?]%atom_lt_total; [by left|by right].
Qed.

Lemma py_lt_trans (a b c : value) :
  py_lt a b = Some true → py_lt b c = Some true → py_lt a c = Some true.
Proof.
  revert b c. induction a as [m|s|xs IH|p x IH] using value_nested_ind;
    intros [n|t|ys|q y] [k|u|zs|r z]; simpl; try done.
  - intros [= H1] [= H2]. f_equal. lia.
  - intros [= H1] [= H2]. f_equal. by apply (string_ltb_trans s t u).
  - apply lex_lt_trans; [|done].
    eapply Forall_impl; [exact IH|]. intros v _ w. apply py_lt_asym.
  - apply atom_lt_trans.
Qed.

Lemma comparable_sym (a b : value) : comparable a b = true → comparable b a = true.
Proof.
  unfold comparable. destruct (py_lt a b) as [[]|] eqn:E; [| |done]; intros _.
  - by rewrite (py_lt_asym _ _ E).
  - apply py_lt_total in E as H. destruct H as [<-|H]; [by rewrite E|by rewrite H].
Qed.

#[global] Instance py_le_refl : Reflexive py_le.
Proof. intros a. by right. Qed.

#[global] Instance py_le_trans : Transitive py_le.
Proof.
  intros a b c [Hab| ->] [Hbc| ->]; try (by left); [|by right].
  left. by apply (py_lt_trans a b c).
Qed.

#[global] Instance py_le_antisym : AntiSymm (=) py_le.
Proof.
  intros a b [Hab|?] [Hba|?]; try done.
  apply py_lt_asym in Hab. congruence.
Qed.

(** ** Properties of [sorted] *)

Lemma forallb_false_elem {A} (f : A → bool) (l : list A) :
  forallb f l = false → ∃ x, x ∈ l ∧ f x = false.
Proof.
  induction l as [|x l IH]; simpl; [done|].
  destruct (f x) eqn:E; simpl.
  - intros (y & ? & ?)%IH. exists y. split; [by right|done].
  - intros _. exists x. split; [left|done].
Qed.

Lemma all_comparable_False (l : list value) :
  all_comparable l = false ↔ unordered_pair l.
Proof.
  induction l as [|x l IH]; cbn [all_comparable].
  { split; [done|]. by intros (i & j & ? & ? & _ & [=] & _). }
  rewrite andb_false_iff, IH. split.
  - intros [(y & [j Hj]%list_elem_of_lookup & Hc)%forallb_false_elem
           |(i & j & a & b & Hij & Hi & Hj & Hab)].
    + exists 0%nat, (S j), x, y. split; [lia|]. split; [done|]. split; [done|].
      unfold comparable in Hc. by destruct (py_lt x y).
    + exists (S i), (S j), a, b. split; [lia|done].
  - intros (i & j & a & b & Hij & Hi & Hj & Hab).
    destruct j as [|j]; [lia|]. destruct i as [|i].
    + left. simplify_eq/=. apply not_true_iff_false. intros Hall.
      rewrite forallb_forall in Hall.
      assert (comparable a b = true) as Hc.
      { apply Hall, list_elem_of_In, list_elem_of_lookup. by exists j. }
      unfold comparable in Hc. by rewrite Hab in Hc.
    + right. exists i, j, a, b. split; [lia|done].
Qed.


Lemma forallb_comparable_perm (x : value) (l l' : list value) :
  l ≡ₚ l' → forallb (comparable x) l = forallb (comparable x) l'.
Proof.
  intros Hp. apply eq_true_iff_eq. rewrite !forallb_forall.
  split; intros H y Hy%list_elem_of_In; apply H, list_elem_of_In.
  - by rewrite Hp.
  - by rewrite <-Hp.
Qed.

Lemma all_comparable_perm (l l' : list value) :
  l ≡ₚ l' → all_comparable l = all_comparable l'.
Proof.
  induction 1 as [|x l l' Hp IH|x y l|l l' l'' _ IH1 _ IH2]; cbn [all_comparable forallb].
  - done.
  - by rewrite IH, (forallb_comparable_perm x l l').
  - assert (comparable x y = comparable y x) as ->.
    { apply eq_true_iff_eq. split; apply comparable_sym. }
    destruct (comparable y x), (forallb (comparable x) l),
      (forallb (comparable y) l); done.
  - by rewrite IH1.
Qed.

Lemma insort_perm (x : value) (l : list value) : insort x l ≡ₚ x :: l.
Proof.
  induction l as [|y l IH]; simpl; [done|].
  destruct (py_lt x y) as [[]|]; try done.
  all: by rewrite IH, Permutation_swap.
Qed.

Lemma sort_values_perm (l : list value) : sort_values l ≡ₚ l.
Proof.
  induction l as [|x l IH]; simpl; [done|].
  by rewrite insort_perm, IH.
Qed.

Lemma insort_sorted (x : value) (l : list value) :
  (∀ y, y ∈ l → comparable x y = true) →
  StronglySorted py_le l → StronglySorted py_le (insort x l).
Proof.
  intros Hcmp Hs. induction Hs as [|y l Hs IH Hy]; simpl.
  { repeat constructor. }
  assert (comparable x y = true) as Hxy by (apply Hcmp; left).
  unfold comparable in Hxy.
  destruct (py_lt x y) as [[]|] eqn:E; [| |done].
  - constructor; [by constructor|]. constructor; [by left|].
    eapply Forall_impl; [exact Hy|]. intros z Hz. transitivity y; [by left|done].
  - constructor.
    + apply IH. intros z Hz. apply Hcmp. by right.
    + rewrite insort_perm. constructor; [|done].
      apply py_lt_total in E as [->|E]; [by right|by left].
Qed.

Lemma sort_values_sorted (l : list value) :
  all_comparable l = true → StronglySorted py_le (sort_values l).
Proof.
  induction l as [|x l IH]; cbn [all_comparable]; intros Hc; simpl.
  { constructor. }
  apply andb_true_iff in Hc as [Hx Hl]. apply insort_sorted; [|by apply IH].
  intros y Hy. rewrite sort_values_perm in Hy.
  rewrite forallb_forall in Hx. by apply Hx, list_elem_of_In.
Qed.

Lemma sorted_Some (l l' : list value) :
  sorted l = Some l' → l' ≡ₚ l ∧ StronglySorted py_le l'.
Proof.
  unfold sorted. destruct (all_comparable l) eqn:E; [|done].
  intros [= <-]. split; [apply sort_values_perm|by apply sort_values_sorted].
Qed.


Lemma sorted_None_iff (l : list value) : sorted l = None ↔ unordered_pair l.
Proof.
  rewrite <-all_comparable_False. unfold sorted.
  by destruct (all_comparable l).
Qed.

Lemma sorted_None (l : list value) :
  sorted l = None → ∃ x y, x ∈ l ∧ y ∈ l ∧ py_lt x y = None.
Proof.
  intros (i & j & x & y & _ & Hi & Hj & Hxy)%sorted_None_iff.
  exists x, y. split_and!; [by eapply list_elem_of_lookup_2..|done].
Qed.

(** The order in which [sorted] receives its items does not matter. *)
Lemma sorted_perm (l l' : list value) : l ≡ₚ l' → sorted l = sorted l'.
Proof.
  intros Hp. unfold sorted. rewrite <-(all_comparable_perm l l' Hp).
  destruct (all_comparable l) eqn:E; [|done]. f_equal.
  apply (StronglySorted_unique py_le).
  - by apply sort_values_sorted.
  - apply sort_values_sorted. by rewrite <-(all_comparable_perm l l' Hp).
  - by rewrite !sort_values_perm.
Qed.

(** ** Building containers *)

Lemma unpack_atom_Some (item : value) (pred : string) (args : value) :
  unpack_atom item = Some (pred, args) ↔ item = py_pair pred args.
Proof.
  split; [|by intros ->].
  destruct item as [| |[|[| s | |] [|a [|]]]|]; simpl; try done.
  by intros [= -> ->].
Qed.

Lemma unpack_atom_pair (pred : string) (args : value) :
  unpack_atom (py_pair pred args) = Some (pred, args).
Proof. done. Qed.

Lemma py_pair_inj (p q : string) (a b : value) :
  py_pair p a = py_pair q b → p = q ∧ a = b.
Proof. by intros [= -> ->]. Qed.

Lemma builder_perm (srt : bool) (l l' : list value) :
  l ≡ₚ l' → builder srt l = builder srt l'.
Proof.
  intros Hp. destruct srt; simpl.
  - unfold sorted_tuple. by rewrite (sorted_perm l l' Hp).
  - unfold frozenset. do 2 f_equal. apply set_eq. intros x.
    by rewrite !elem_of_list_to_set, Hp.
Qed.

Lemma builder_members (srt : bool) (l : list value) (c : container) :
  builder srt l = Some c → ∀ x, x ∈ members c ↔ x ∈ l.
Proof.
  destruct srt; simpl.
  - unfold sorted_tuple. destruct (sorted l) as [l'|] eqn:E; [|done].
    intros [= <-] x. simpl. apply sorted_Some in E as [Hp _].
    by rewrite elem_of_list_to_set, Hp.
  - intros [= <-] x. simpl. by rewrite elem_of_list_to_set.
Qed.

Lemma builder_frozenset (l : list value) :
  builder false l = Some (FrozenSet (list_to_set l)).
Proof. done. Qed.

Lemma builder_sorted (l : list value) (c : container) :
  builder true l = Some c →
  ∃ l', c = Tuple l' ∧ l' ≡ₚ l ∧ StronglySorted py_le l'.
Proof.
  simpl. unfold sorted_tuple. destruct (sorted l) as [l'|] eqn:E; [|done].
  intros [= <-]. exists l'. by apply sorted_Some in E as [??].
Qed.

Lemma iterate_members (ho : hash_order) (c : container) (x : value) :
  x ∈ iterate ho c ↔ x ∈ members c.
Proof.
  destruct c as [s|l]; simpl.
  - by rewrite (iter_set_perm ho s), elem_of_elements.
  - by rewrite elem_of_list_to_set.
Qed.

Lemma iterate_perm (ho1 ho2 : hash_order) (c : container) :
  iterate ho1 c ≡ₚ iterate ho2 c.
Proof.
  destruct c as [s|l]; simpl; [|done].
  by rewrite !iter_set_perm.
Qed.

(** ** The grouping loop *)

Lemma groups_nil (pyasp : bool) : groups pyasp [] ∅.
Proof. intros p. rewrite lookup_empty. intros a Ha. by apply not_elem_of_nil in Ha. Qed.

Lemma groups_snoc (pyasp : bool) (items : list value)
    (mapping : gmap string (gset value)) (pred : string) (args : value) :
  groups pyasp items mapping →
  groups pyasp (items ++ [py_pair pred args])
    (<[pred := default ∅ (mapping !! pred) ∪ {[wrap pyasp pred args]}]> mapping).
Proof.
  intros Hg p. specialize (Hg p). destruct (decide (pred = p)) as [->|Hne].
  - rewrite lookup_insert_eq. split.
    { exists args. apply elem_of_app. right. by apply list_elem_of_singleton. }
    intros v. rewrite elem_of_union, elem_of_singleton.
    destruct (mapping !! p) as [s|] eqn:E; simpl.
    + destruct Hg as [_ Hs]. rewrite Hs. split.
      * intros [(a & Ha & ->)| ->].
        -- exists a. split; [|done]. apply elem_of_app. by left.
        -- exists args. split; [|done]. apply elem_of_app. right.
           by apply list_elem_of_singleton.
      * intros (a & [Ha|Ha%list_elem_of_singleton]%elem_of_app & ->).
        -- left. by exists a.
        -- right. by apply py_pair_inj in Ha as [_ ->].
    + split.
      * intros [Hv| ->]; [by apply not_elem_of_empty in Hv|].
        exists args. split; [|done]. apply elem_of_app. right.
        by apply list_elem_of_singleton.
      * intros (a & [Ha|Ha%list_elem_of_singleton]%elem_of_app & ->).
        -- by apply Hg in Ha.
        -- right. by apply py_pair_inj in Ha as [_ ->].
  - rewrite lookup_insert_ne by done.
    destruct (mapping !! p) as [s|] eqn:E.
    + destruct Hg as [[a0 Ha0] Hs]. split.
      { exists a0. apply elem_of_app. by left. }
      intros v. rewrite Hs. split.
      * intros (a & Ha & ->). exists a. split; [|done]. apply elem_of_app. by left.
      * intros (a & [Ha|Ha%list_elem_of_singleton]%elem_of_app & ->).
        -- by exists a.
        -- by apply py_pair_inj in Ha as [? _].
    + intros a [Ha|Ha%list_elem_of_singleton]%elem_of_app.
      * by apply Hg in Ha.
      * by apply py_pair_inj in Ha as [? _].
Qed.

Lemma group_loop_from (pyasp : bool) (done_ items : list value)
    (mapping : gmap string (gset value)) :
  Forall (λ v, ∃ p a, v = py_pair p a) items →
  groups pyasp done_ mapping →
  ∃ m, foldl (λ acc item, mapping ← acc; group_step pyasp mapping item)
             (Some mapping) items = Some m ∧
       groups pyasp (done_ ++ items) m.
Proof.
  intros Hitems. revert done_ mapping.
  induction Hitems as [|item items (p & a & ->) _ IH]; intros done_ mapping Hg; simpl.
  - exists mapping. by rewrite app_nil_r.
  - destruct (IH (done_ ++ [py_pair p a])%list _ (groups_snoc pyasp _ _ p a Hg))
      as (m & Hm & Hgm).
    exists m. split; [exact Hm|]. by rewrite <-app_assoc in Hgm.
Qed.

Lemma group_loop_groups (pyasp : bool) (items : list value) :
  Forall (λ v, ∃ p a, v = py_pair p a) items →
  ∃ m, group_loop pyasp items = Some m ∧ groups pyasp items m.
Proof.
  intros Hitems.
  apply (group_loop_from pyasp [] items ∅ Hitems (groups_nil pyasp)).
Qed.

(** [groups] determines the mapping, whatever the order and the repetitions
    of the items. *)
Lemma groups_unique (pyasp : bool) (items items' : list value)
    (m m' : gmap string (gset value)) :
  (∀ x, x ∈ items ↔ x ∈ items') →
  groups pyasp items m → groups pyasp items' m' → m = m'.
Proof.
  intros Heq Hg Hg'. apply map_eq. intros p.
  specialize (Hg p). specialize (Hg' p).
  destruct (m !! p) as [s|], (m' !! p) as [s'|]; try done.
  - f_equal. apply set_eq. intros v.
    destruct Hg as [_ ->], Hg' as [_ ->].
    split; intros (a & Ha & ->); exists a; (split; [by apply Heq|done]).
  - destruct Hg as [[a Ha] _]. by apply Heq, Hg' in Ha.
  - destruct Hg' as [[a Ha] _]. by apply Heq, Hg in Ha.
Qed.

(** ** The dictionary comprehension *)

Lemma build_mapping_Some (ho : hash_order) (srt : bool)
    (mapping : gmap string (gset value)) (m : gmap string container) :
  build_mapping ho srt mapping = Some m →
  ∀ p, m !! p = mapping !! p ≫= λ s, builder srt (iter_set ho s).
Proof.
  unfold build_mapping.
  destruct (mapM _ (map_to_list mapping)) as [k|] eqn:E; [|done].
  intros [= <-] p. apply mapM_Some in E.
  assert (k.*1 = (map_to_list mapping).*1) as Hfst.
  { clear -E. induction E as [|[q s] [q' c] l k' Hx _ IH]; simpl; [done|].
    simpl in Hx. destruct (builder srt (iter_set ho s)); simplify_eq/=.
    by f_equal. }
  assert (NoDup k.*1) as Hnd.
  { rewrite Hfst. apply NoDup_fst_map_to_list. }
  destruct (mapping !! p) as [s|] eqn:Hp; simpl.
  - apply elem_of_map_to_list, list_elem_of_lookup in Hp as [i Hi].
    destruct (Forall2_lookup_l _ _ _ _ _ E Hi) as ([q c] & Hk & Hx).
    simpl in Hx. destruct (builder srt (iter_set ho s)) as [c'|]; simplify_eq/=.
    apply elem_of_list_to_map_1; [done|]. apply list_elem_of_lookup. by exists i.
  - apply not_elem_of_list_to_map_1. rewrite Hfst.
    intros ([q s] & -> & Hin%elem_of_map_to_list)%list_elem_of_fmap. simpl in *.
    congruence.
Qed.

Lemma build_mapping_buckets (ho : hash_order) (srt : bool)
    (mapping : gmap string (gset value)) (m : gmap string container)
    (p : string) (s : gset value) :
  build_mapping ho srt mapping = Some m → mapping !! p = Some s →
  is_Some (builder srt (iter_set ho s)).
Proof.
  unfold build_mapping.
  destruct (mapM _ (map_to_list mapping)) as [k|] eqn:E; [|done].
  intros _ Hp. apply mapM_Some in E.
  apply elem_of_map_to_list, list_elem_of_lookup in Hp as [i Hi].
  destruct (Forall2_lookup_l _ _ _ _ _ E Hi) as ([q c] & _ & Hx).
  simpl in Hx. by destruct (builder srt (iter_set ho s)).
Qed.

Lemma build_mapping_None (ho : hash_order) (srt : bool)
    (mapping : gmap string (gset value)) :
  build_mapping ho srt mapping = None →
  ∃ p s, mapping !! p = Some s ∧ builder srt (iter_set ho s) = None.
Proof.
  unfold build_mapping.
  destruct (mapM _ (map_to_list mapping)) as [k|] eqn:E; [done|]. intros _.
  assert (∃ p s, (p, s) ∈ map_to_list mapping ∧
                 builder srt (iter_set ho s) = None) as (p & s & Hin & Hb).
  { clear -E. induction (map_to_list mapping) as [|[q s] l IH]; [done|].
    simpl in E.
    destruct (builder srt (iter_set ho s)) as [c|] eqn:Hc; simpl in E.
    - destruct (mapM _ l) as [k|] eqn:El; [done|].
      destruct IH as (p & s' & ? & ?); [done|]. exists p, s'. split; [by right|done].
    - exists q, s. split; [left|done]. }
  exists p, s. split; [by apply elem_of_map_to_list|done].
Qed.

Lemma build_mapping_hash_order (ho1 ho2 : hash_order) (srt : bool)
    (mapping : gmap string (gset value)) :
  build_mapping ho1 srt mapping = build_mapping ho2 srt mapping.
Proof.
  unfold build_mapping. f_equal. apply mapM_ext. intros [p s].
  by rewrite (builder_perm srt (iter_set ho1 s) (iter_set ho2 s))
    by (by rewrite !iter_set_perm).
Qed.

(** ** The loop body *)

Lemma loop_body_first_container (ho : hash_order) (srt : bool) (self : Answers)
    (raw : raw_answer_set) :
  loop_body ho srt self raw =
    answer_set ← builder srt (item_of (_first_arg_only self) <$> raw);
    if _group_atoms self then
      mapping ← group_loop (_as_pyasp self) (iterate ho answer_set);
      Mapping <$> build_mapping ho srt mapping
    else if _as_pyasp self then
      atoms ← wrap_atoms (iterate ho answer_set);
      Flat <$> builder srt atoms
    else Some (Flat answer_set).
Proof.
  unfold loop_body, item_of, arg_repr.
  destruct (_first_arg_only self).
  - by rewrite (list_fmap_ext _ (λ atom, py_pair atom.1 (first_or_empty atom.2)) raw)
      by (by intros ? []).
  - by rewrite (list_fmap_ext _ (λ atom, py_pair atom.1 (VTuple atom.2)) raw)
      by (by intros ? []).
Qed.

Lemma items_are_pairs (ho : hash_order) (srt first : bool) (raw : raw_answer_set)
    (c : container) :
  builder srt (item_of first <$> raw) = Some c →
  Forall (λ v, ∃ p a, v = py_pair p a) (iterate ho c).
Proof.
  intros Hc. apply Forall_forall. intros v Hv.
  apply iterate_members in Hv. apply (builder_members _ _ _ Hc) in Hv.
  apply list_elem_of_fmap in Hv as ([p args] & -> & _). by eexists _, _.
Qed.

Lemma item_of_elem (ho : hash_order) (srt first : bool) (raw : raw_answer_set)
    (c : container) (p : string) (a : value) :
  builder srt (item_of first <$> raw) = Some c →
  py_pair p a ∈ iterate ho c ↔ ∃ args, (p, args) ∈ raw ∧ a = arg_repr first args.
Proof.
  intros Hc. rewrite iterate_members, (builder_members _ _ _ Hc).
  rewrite list_elem_of_fmap. split.
  - intros ([q args] & [-> ->]%py_pair_inj & Hin). by exists args.
  - intros (args & Hin & ->). by exists (p, args).
Qed.

Lemma wrap_atoms_pairs (items : list value) :
  Forall (λ v, ∃ p a, v = py_pair p a) items →
  ∃ atoms, wrap_atoms items = Some atoms ∧
    ∀ v, v ∈ atoms ↔ ∃ p a, py_pair p a ∈ items ∧ v = VAtom p a.
Proof.
  unfold wrap_atoms. induction 1 as [|item items (p & a & ->) _ (atoms & IH & Hin)].
  - exists []. split; [done|]. intros v. split.
    + by intros ?%not_elem_of_nil.
    + by intros (? & ? & ?%not_elem_of_nil & _).
  - exists (VAtom p a :: atoms). split.
    { simpl. simpl in IH. by rewrite IH. }
    intros v. rewrite elem_of_cons, Hin. split.
    + intros [->|(q & b & ? & ->)].
      * exists p, a. split; [left|done].
      * exists q, b. split; [by right|done].
    + intros (q & b & [[-> ->]%py_pair_inj|?]%elem_of_cons & ->); [by left|].
      right. by exists q, b.
Qed.

Lemma wrap_atoms_perm (items items' : list value) (atoms : list value) :
  items ≡ₚ items' → wrap_atoms items = Some atoms →
  ∃ atoms', wrap_atoms items' = Some atoms' ∧ atoms ≡ₚ atoms'.
Proof.
  unfold wrap_atoms. intros Hp. revert atoms.
  induction Hp as [|x l l' Hp IH|x y l|l l' l'' _ IH1 _ IH2]; intros atoms; simpl.
  - intros [= <-]. by exists [].
  - destruct (unpack_atom x) as [[p a]|]; simpl; [|done].
    destruct (mapM _ l) as [k|] eqn:E; simpl; [|done]. intros [= <-].
    destruct (IH k eq_refl) as (k' & -> & Hk). simpl. by exists (VAtom p a :: k'); split; [|constructor].
  - destruct (unpack_atom x) as [[p a]|]; simpl;
      destruct (unpack_atom y) as [[q b]|]; simpl; try done;
      destruct (mapM _ l) as [k|]; simpl; try done.
    intros [= <-]. eexists. split; [done|]. apply Permutation_swap.
  - intros H1. destruct (IH1 _ H1) as (k' & H2 & ?).
    destruct (IH2 _ H2) as (k'' & H3 & ?). exists k''. split; [done|]. by etrans.
Qed.

(** Without [sorted] the loop body never raises. *)
Lemma loop_body_unsorted (ho : hash_order) (self : Answers) (raw : raw_answer_set) :
  is_Some (loop_body ho false self raw).
Proof.
  rewrite loop_body_first_container. rewrite builder_frozenset. simpl.
  pose proof (items_are_pairs ho false (_first_arg_only self) raw _
                (builder_frozenset _)) as Hpairs. simpl in Hpairs.
  destruct (_group_atoms self).
  - destruct (group_loop_groups (_as_pyasp self) _ Hpairs) as (m & -> & _). simpl.
    destruct (build_mapping ho false m) as [m'|] eqn:E; [by eexists|].
    by apply build_mapping_None in E as (? & ? & _ & ?).
  - destruct (_as_pyasp self); [|by eexists].
    destruct (wrap_atoms_pairs _ Hpairs) as (atoms & -> & _). by eexists.
Qed.

Lemma builder_shaped (srt : bool) (l : list value) (c : container) :
  builder srt l = Some c → shaped srt c.
Proof.
  destruct srt.
  - intros (l' & -> & _ & ?)%builder_sorted. by exists l'.
  - intros [= <-]. by eexists.
Qed.

Lemma builder_set_NoDup (ho : hash_order) (srt : bool) (s : gset value)
    (l : list value) :
  builder srt (iter_set ho s) = Some (Tuple l) → NoDup l.
Proof.
  destruct srt; [|done].
  intros (l' & [= <-] & Hp & _)%builder_sorted.
  rewrite Hp, iter_set_perm. apply NoDup_elements.
Qed.

(** What the loop body yields, when it yields. *)
Lemma loop_body_transformed (ho : hash_order) (srt : bool) (self : Answers)
    (raw : raw_answer_set) (out : answer_set) :
  loop_body ho srt self raw = Some out → transformed srt self raw out.
Proof.
  rewrite loop_body_first_container. unfold transformed.
  destruct (builder srt (_ <$> raw)) as [c|] eqn:Hc; simpl; [|done].
  pose proof (items_are_pairs ho _ _ _ _ Hc) as Hpairs.
  pose proof (λ p a, item_of_elem ho _ _ _ _ p a Hc) as Helem.
  destruct (_group_atoms self).
  - destruct (group_loop_groups (_as_pyasp self) _ Hpairs) as (mapping & -> & Hg).
    simpl. destruct (build_mapping ho srt mapping) as [m|] eqn:Hm; simpl; [|done].
    intros [= <-]. exists m. split; [done|].
    pose proof (build_mapping_Some _ _ _ _ Hm) as Hlook. split.
    + intros p. rewrite elem_of_dom, Hlook. specialize (Hg p).
      destruct (mapping !! p) as [s|] eqn:Hp; simpl.
      * destruct Hg as [[a Ha] _]. apply Helem in Ha as (args & ? & _). split.
        -- intros _. by exists args.
        -- intros _. by eapply build_mapping_buckets.
      * split; [by intros []|]. intros (args & Hin).
        exfalso. apply (Hg (arg_repr (_first_arg_only self) args)).
        apply Helem. by exists args.
    + intros p c'. rewrite Hlook. specialize (Hg p).
      destruct (mapping !! p) as [s|] eqn:Hp; simpl; [|done].
      intros Hb. split; [by eapply builder_shaped|]. split.
      { intros l ->. by eapply builder_set_NoDup. }
      intros v. rewrite (builder_members _ _ _ Hb), iter_set_perm, elem_of_elements.
      destruct Hg as [_ ->]. split.
      * intros (a & (args & ? & ->)%Helem & ->). by exists args.
      * intros (args & ? & ->). eexists. split; [|done]. apply Helem. by exists args.
  - destruct (_as_pyasp self); simpl.
    + destruct (wrap_atoms_pairs _ Hpairs) as (atoms & -> & Hatoms). simpl.
      destruct (builder srt atoms) as [c'|] eqn:Hb; simpl; [|done].
      intros [= <-]. exists c'. split; [done|]. split; [by eapply builder_shaped|].
      intros v. rewrite (builder_members _ _ _ Hb), Hatoms. split.
      * intros (p & a & (args & ? & ->)%Helem & ->). by exists p, args.
      * intros (p & args & ? & ->). eexists _, _. split; [|done].
        apply Helem. by exists args.
    + intros [= <-]. exists c. split; [done|]. split; [by eapply builder_shaped|].
      intros v. rewrite <-(iterate_members ho). split.
      * intros Hv. destruct (proj1 (Forall_forall _ _) Hpairs v Hv) as (p & a & ->).
        apply Helem in Hv as (args & ? & ->). by exists p, args.
      * intros (p & args & ? & ->). apply Helem. by exists args.
Qed.

(** The loop body does not depend on the order in which hashed containers
    are iterated, nor on the order in which the raw answer set hands over its
    atoms. *)
Lemma loop_body_order (ho1 ho2 : hash_order) (srt : bool) (self : Answers)
    (raw raw' : raw_answer_set) :
  raw ≡ₚ raw' → loop_body ho1 srt self raw = loop_body ho2 srt self raw'.
Proof.
  intros Hraw. rewrite !loop_body_first_container.
  rewrite <-(builder_perm srt _ _ (fmap_Permutation (item_of _) _ _ Hraw)).
  destruct (builder srt (_ <$> raw)) as [c|] eqn:Hc; simpl; [|done].
  pose proof (items_are_pairs ho1 _ _ _ _ Hc) as Hpairs1.
  pose proof (items_are_pairs ho2 _ _ _ _ Hc) as Hpairs2.
  destruct (_group_atoms self).
  - destruct (group_loop_groups (_as_pyasp self) _ Hpairs1) as (m1 & -> & Hg1).
    destruct (group_loop_groups (_as_pyasp self) _ Hpairs2) as (m2 & -> & Hg2).
    simpl.
    assert (m1 = m2) as ->.
    { apply (groups_unique _ _ _ m1 m2) with (3 := Hg2) (2 := Hg1).
      intros x. by rewrite (iterate_perm ho1 ho2). }
    by rewrite (build_mapping_hash_order ho1 ho2).
  - destruct (_as_pyasp self); [|done].
    destruct (wrap_atoms_pairs _ Hpairs1) as (atoms & Hatoms & _).
    destruct (wrap_atoms_perm _ _ _ (iterate_perm ho1 ho2 c) Hatoms)
      as (atoms' & Hatoms' & Hp).
    rewrite Hatoms, Hatoms'. simpl. by rewrite (builder_perm srt _ _ Hp).
Qed.

(** ** Generators and traversals *)

Lemma loop_body_advance (ho : hash_order) (srt : bool) (self : Answers)
    (rest : list raw_answer_set) (raw : raw_answer_set) :
  loop_body ho srt (advance self rest) raw = loop_body ho srt self raw.
Proof. done. Qed.

Lemma advance_advance (self : Answers) (l l' : list raw_answer_set) :
  advance (advance self l) l' = advance self l'.
Proof. done. Qed.

Lemma advance_same (self : Answers) : advance self (_answers self) = self.
Proof. by destruct self. Qed.

Lemma yields_advance (ho : hash_order) (srt : bool) (self : Answers)
    (rest src : list raw_answer_set) :
  yields ho srt (advance self rest) src = yields ho srt self src.
Proof.
  induction src as [|raw src IH]; simpl; [done|].
  by rewrite loop_body_advance, IH.
Qed.

(** With enough fuel a suspended generator runs to its end, and yields what
    [yields] says. *)
Lemma consume_suspended (ho : hash_order) (srt : bool) (fuel : nat) (self : Answers) :
  (length (_answers self) < fuel)%nat →
  consume ho fuel (GenSuspended srt) self =
    Some (let '(l, raised, remaining) := yields ho srt self (_answers self) in
          (l, raised, advance self remaining)).
Proof.
  revert self. induction fuel as [|fuel IH]; intros self Hlen; [lia|].
  simpl. unfold resume.
  destruct (_answers self) as [|raw rest] eqn:Hsrc; simpl.
  { by rewrite <-Hsrc, advance_same. }
  destruct (loop_body ho srt self raw) as [a|] eqn:E; simpl; [|done].
  rewrite IH by (simpl in *; lia).
  change (_answers (advance self rest)) with rest.
  rewrite yields_advance. simpl.
  by destruct (yields ho srt self rest) as [[l r] rem].
Qed.

Lemma traverse_yields (ho : hash_order) (self : Answers) :
  traverse ho self =
    Some (let '(l, raised, remaining) :=
            yields ho (_sorted self) self (_answers self) in
          (l, raised, advance self remaining)).
Proof.
  unfold traverse, __iter__.
  rewrite <-(consume_suspended ho (_sorted self) (S (length (_answers self))) self)
    by lia.
  done.
Qed.

Lemma yields_spec (ho : hash_order) (srt : bool) (self : Answers)
    (src : list raw_answer_set) :
  ∀ l raised remaining, yields ho srt self src = (l, raised, remaining) →
    Forall2 (λ raw out, loop_body ho srt self raw = Some out)
            (take (length l) src) l ∧
    (if raised
     then ∃ raw, src !! length l = Some raw ∧ loop_body ho srt self raw = None ∧
                 remaining = drop (S (length l)) src
     else length l = length src ∧ remaining = []).
Proof.
  induction src as [|raw src IH]; simpl; intros l raised remaining.
  - intros [= <- <- <-]. simpl. split; [constructor|done].
  - destruct (loop_body ho srt self raw) as [a|] eqn:E.
    + destruct (yields ho srt self src) as [[l' r'] rem'].
      intros [= <- <- <-]. destruct (IH _ _ _ eq_refl) as [Hall Hend]. simpl.
      split; [by constructor|]. destruct r'; [done|].
      destruct Hend as [-> ->]. done.
    + intros [= <- <- <-]. simpl. split; [constructor|]. by exists raw.
Qed.

Lemma yields_order (ho1 ho2 : hash_order) (srt : bool) (self : Answers)
    (src src' : list raw_answer_set) :
  Forall2 (≡ₚ) src src' →
  (yields ho1 srt self src).1 = (yields ho2 srt self src').1.
Proof.
  induction 1 as [|raw raw' src src' Hraw _ IH]; simpl; [done|].
  rewrite <-(loop_body_order ho1 ho2 srt self raw raw' Hraw).
  destruct (loop_body ho1 srt self raw); [|done].
  destruct (yields ho1 srt self src) as [[l r] rem],
    (yields ho2 srt self src') as [[l' r'] rem']. simpl in *. congruence.
Qed.

Lemma wrap_atoms_items (first : bool) (raw : raw_answer_set) :
  wrap_atoms (item_of first <$> raw)
    = Some ((λ atom, VAtom atom.1 (arg_repr first atom.2)) <$> raw).
Proof.
  unfold wrap_atoms. induction raw as [|[p args] raw IH]; [done|].
  cbn [fmap list_fmap mapM]. fold (list_fmap _ _ (item_of first) raw).
  change (list_fmap raw_atom value (item_of first) raw)
    with (item_of first <$> raw).
  by rewrite IH.
Qed.

Lemma sorted_NoDup_strict (l : list value) :
  StronglySorted py_le l → NoDup l → strictly_increasing l.
Proof.
  unfold strictly_increasing. induction 1 as [|x l Hs IH Hx]; intros Hnd.
  { constructor. }
  apply NoDup_cons in Hnd as [Hnotin Hnd]. constructor; [by apply IH|].
  apply Forall_forall. intros y Hy.
  destruct (proj1 (Forall_forall _ _) Hx y Hy) as [Hlt| ->]; [done|].
  by destruct Hnotin.
Qed.


(** ** Sorting the containers *)

Lemma py_lt_pairs (p q : string) (a b : value) :
  py_lt (py_pair p a) (py_pair q b) =
    if decide (p = q) then (if decide (a = b) then Some false else py_lt a b)
    else Some (String.ltb p q).
Proof.
  unfold py_pair. cbn [py_lt lex_lt].
  destruct (decide (p = q)) as [->|Hpq].
  - rewrite decide_True by done. by destruct (decide (a = b)).
  - by rewrite decide_False by congruence.
Qed.

Lemma py_lt_pairs_None (p q : string) (a b : value) :
  py_lt (py_pair p a) (py_pair q b) = None ↔ p = q ∧ a ≠ b ∧ py_lt a b = None.
Proof.
  rewrite py_lt_pairs. destruct (decide (p = q)) as [->|Hpq].
  - destruct (decide (a = b)) as [->|Hab].
    + split; [done|]. by intros (_ & ? & _).
    + split; [done|]. by intros (_ & _ & ?).
  - split; [done|]. by intros (? & _).
Qed.

Lemma py_lt_None_sym (x y : value) : py_lt x y = None → py_lt y x = None.
Proof.
  intros Hxy. destruct (py_lt y x) as [b|] eqn:E; [|done].
  assert (comparable y x = true) as Hc by (unfold comparable; by rewrite E).
  apply comparable_sym in Hc. unfold comparable in Hc. by rewrite Hxy in Hc.
Qed.

Lemma unordered_pair_elems (l : list value) :
  unordered_pair l → ∃ x y, x ∈ l ∧ y ∈ l ∧ py_lt x y = None.
Proof.
  intros (i & j & x & y & _ & Hi & Hj & Hxy).
  exists x, y. split_and!; [by eapply list_elem_of_lookup_2..|done].
Qed.

Lemma unordered_pair_distinct (l : list value) (x y : value) :
  x ∈ l → y ∈ l → x ≠ y → py_lt x y = None → unordered_pair l.
Proof.
  intros [i Hi]%list_elem_of_lookup [j Hj]%list_elem_of_lookup Hne Hxy.
  destruct (decide (i < j)%nat) as [Hij|Hij].
  { by exists i, j, x, y. }
  assert (i ≠ j) by (intros ->; congruence).
  exists j, i, y, x. split; [lia|]. split; [done|]. split; [done|].
  by apply py_lt_None_sym.
Qed.

Lemma unordered_pair_NoDup (l : list value) :
  NoDup l →
  unordered_pair l ↔ ∃ x y, x ∈ l ∧ y ∈ l ∧ x ≠ y ∧ py_lt x y = None.
Proof.
  intros Hnd. split.
  - intros (i & j & x & y & Hij & Hi & Hj & Hxy).
    exists x, y. split_and!; [by eapply list_elem_of_lookup_2..| |done].
    intros ->. pose proof (NoDup_lookup _ _ _ _ Hnd Hi Hj). lia.
  - intros (x & y & Hx & Hy & Hne & Hxy). by apply (unordered_pair_distinct l x y).
Qed.

Lemma unordered_pair_perm (l l' : list value) :
  l ≡ₚ l' → unordered_pair l ↔ unordered_pair l'.
Proof. intros Hp. by rewrite <-!sorted_None_iff, (sorted_perm l l' Hp). Qed.

(** The pairs of the atoms cannot be sorted exactly when two atoms of one
    predicate have representations that differ and do not compare. *)
Lemma unordered_items (first : bool) (raw : raw_answer_set) :
  unordered_pair (item_of first <$> raw) ↔
  ∃ p args args',
    (p, args) ∈ raw ∧ (p, args') ∈ raw ∧
    arg_repr first args ≠ arg_repr first args' ∧
    py_lt (arg_repr first args) (arg_repr first args') = None.
Proof.
  split.
  - intros (x & y & Hx & Hy & Hxy)%unordered_pair_elems.
    apply list_elem_of_fmap in Hx as ([p args] & -> & Hx).
    apply list_elem_of_fmap in Hy as ([q args'] & -> & Hy).
    unfold item_of in Hxy. cbn [fst snd] in Hxy.
    apply py_lt_pairs_None in Hxy as (-> & Hne & Hxy).
    by exists q, args, args'.
  - intros (p & args & args' & Hin & Hin' & Hne & Hnone).
    apply (unordered_pair_distinct _ (item_of first (p, args))
             (item_of first (p, args'))).
    + apply list_elem_of_fmap. by exists (p, args).
    + apply list_elem_of_fmap. by exists (p, args').
    + unfold item_of, py_pair. cbn [fst snd]. congruence.
    + unfold item_of. cbn [fst snd]. by apply py_lt_pairs_None.
Qed.

(** Under [sorted] and without grouping: one member for every atom. *)
Lemma loop_body_sorted_flat (ho : hash_order) (self : Answers)
    (raw : raw_answer_set) (out : answer_set) :
  _group_atoms self = false →
  loop_body ho true self raw = Some out →
  ∃ l, out = Flat (Tuple l) ∧
       l ≡ₚ member_of self <$> raw ∧
       StronglySorted py_le l.
Proof.
  intros Hg. rewrite loop_body_first_container, Hg.
  destruct (builder true (item_of (_first_arg_only self) <$> raw)) as [c|] eqn:Hc;
    [|done].
  apply builder_sorted in Hc as (l0 & -> & Hl0 & Hs0).
  cbn [mbind option_bind iterate]. unfold member_of, element.
  destruct (_as_pyasp self).
  - destruct (wrap_atoms_perm _ _ _ (symmetry Hl0) (wrap_atoms_items _ raw))
      as (atoms & -> & Hatoms).
    cbn [mbind option_bind].
    destruct (builder true atoms) as [c|] eqn:Hc; [|done].
    apply builder_sorted in Hc as (l & -> & Hl & Hs).
    intros [= <-]. exists l. split; [done|]. split; [|done].
    by rewrite Hl, <-Hatoms.
  - intros [= <-]. by exists l0.
Qed.

Lemma builder_first_container (srt : bool) (self : Answers)
    (raw : raw_answer_set) (c : container) :
  builder srt (item_of (_first_arg_only self) <$> raw) = Some c →
  first_container_of srt self raw c.
Proof.
  unfold first_container_of. destruct srt.
  - intros (l & -> & ? & ?)%builder_sorted. by exists l.
  - by intros [= <-].
Qed.

(** What the loop body yields, when it yields, in full. *)
Lemma loop_body_delivered (ho : hash_order) (srt : bool) (self : Answers)
    (raw : raw_answer_set) (out : answer_set) :
  loop_body ho srt self raw = Some out → delivered srt self raw out.
Proof.
  intros Hbody. pose proof (loop_body_transformed _ _ _ _ _ Hbody) as Htr.
  pose proof Hbody as Hbody'.
  rewrite loop_body_first_container in Hbody.
  destruct (builder srt (item_of (_first_arg_only self) <$> raw)) as [c|] eqn:Hc;
    [|done].
  cbn [mbind option_bind] in Hbody.
  exists c. split; [by apply builder_first_container|].
  assert (∀ p a, py_pair p a ∈ members c ↔
                 ∃ args, (p, args) ∈ raw ∧
                         a = arg_repr (_first_arg_only self) args) as Helem.
  { intros p a. rewrite <-(iterate_members ho). by apply (item_of_elem ho srt). }
  unfold transformed in Htr. destruct (_group_atoms self) eqn:Hg.
  - destruct Htr as (m & -> & Hdom & Hm). exists m. split; [done|]. split.
    + intros p. rewrite Hdom. split.
      * intros (args & Hin). eexists. apply Helem. by exists args.
      * intros (a & (args & Hin & _)%Helem). by exists args.
    + intros p bucket Hb. destruct (Hm p bucket Hb) as (Hshape & Hnd & Hmem).
      split.
      * unfold shaped in Hshape. destruct srt; [|done].
        destruct Hshape as (l & -> & Hs). exists l. split; [done|].
        apply sorted_NoDup_strict; [done|]. by apply Hnd.
      * intros v. rewrite Hmem. split.
        -- intros (args & Hin & ->). eexists. split; [|done].
           apply Helem. by exists args.
        -- intros (a & (args & Hin & ->)%Helem & ->). by exists args.
  - destruct (_as_pyasp self) eqn:Hp.
    + destruct srt.
      * by apply (loop_body_sorted_flat ho self raw out Hg).
      * destruct Htr as (c' & -> & (s & ->) & Hmem). do 2 f_equal.
        apply set_eq. intros v. cbn [members] in Hmem.
        rewrite Hmem, elem_of_list_to_set, list_elem_of_fmap.
        unfold member_of. rewrite Hp. split.
        -- intros (p & args & Hin & ->). by exists (p, args).
        -- intros ([p args] & -> & Hin). by exists p, args.
    + by simplify_eq.
Qed.

Lemma build_mapping_is_None (ho : hash_order) (srt : bool)
    (mapping : gmap string (gset value)) :
  build_mapping ho srt mapping = None ↔
  ∃ p s, mapping !! p = Some s ∧ builder srt (iter_set ho s) = None.
Proof.
  split; [apply build_mapping_None|].
  intros (p & s & Hp & Hb).
  destruct (build_mapping ho srt mapping) as [m|] eqn:E; [|done].
  destruct (build_mapping_buckets _ _ _ _ _ _ E Hp) as [c Hc]. congruence.
Qed.

(** Under [sorted] the loop body raises exactly on an answer set it cannot
    sort. *)
Lemma loop_body_sorted_None (ho : hash_order) (self : Answers)
    (raw : raw_answer_set) :
  loop_body ho true self raw = None ↔ unsortable self raw.
Proof.
  unfold unsortable. rewrite <-unordered_items, <-sorted_None_iff.
  rewrite loop_body_first_container. cbn [builder]. unfold sorted_tuple.
  destruct (sorted (item_of (_first_arg_only self) <$> raw)) as [l0|] eqn:Hs;
    cbn [fmap option_fmap option_map mbind option_bind iterate].
  2: { split; [by left|done]. }
  assert (builder true (item_of (_first_arg_only self) <$> raw)
          = Some (Tuple l0)) as Hc.
  { cbn [builder]. unfold sorted_tuple. by rewrite Hs. }
  pose proof (items_are_pairs ho _ _ _ _ Hc) as Hpairs. cbn [iterate] in Hpairs.
  pose proof (λ p a, item_of_elem ho _ _ _ _ p a Hc) as Helem.
  cbn [iterate] in Helem.
  assert (¬ unordered_pair (item_of (_first_arg_only self) <$> raw)) as Hord.
  { rewrite <-sorted_None_iff. congruence. }
  rewrite unordered_items in Hord.
  destruct (_group_atoms self).
  - destruct (group_loop_groups (_as_pyasp self) _ Hpairs) as (m & -> & Hg).
    cbn [mbind option_bind].
    assert (Mapping <$> build_mapping ho true m = None
            ↔ build_mapping ho true m = None) as ->
      by (by destruct (build_mapping ho true m)).
    rewrite build_mapping_is_None. split.
    + intros (p & s & Hp & Hb). right.
      cbn [builder] in Hb. unfold sorted_tuple in Hb.
      destruct (sorted (iter_set ho s)) as [l|] eqn:Hs'; [done|].
      apply sorted_None_iff, unordered_pair_NoDup in Hs'
        as (x & y & Hx & Hy & Hne & Hxy);
        [|rewrite iter_set_perm; apply NoDup_elements].
      rewrite iter_set_perm, elem_of_elements in Hx, Hy.
      specialize (Hg p). rewrite Hp in Hg. destruct Hg as [_ Hg].
      apply Hg in Hx as (a & (args & Hin & ->)%Helem & ->).
      apply Hg in Hy as (b & (args' & Hin' & ->)%Helem & ->).
      unfold wrap in Hne, Hxy. destruct (_as_pyasp self).
      * split; [done|]. exists p, args, args'.
        split_and!; [done|done|congruence|done].
      * exfalso. apply Hord. by exists p, args, args'.
    + intros [Hitems|[Hp (p & args & args' & Hin & Hin' & Hne & Hnone)]];
        [done|].
      specialize (Hg p).
      destruct (m !! p) as [s|] eqn:Hmp.
      2: { exfalso. eapply Hg, Helem. by exists args. }
      destruct Hg as [_ Hg]. exists p, s. split; [done|].
      cbn [builder]. unfold sorted_tuple.
      assert (sorted (iter_set ho s) = None) as ->; [|done].
      apply sorted_None_iff.
      apply (unordered_pair_distinct _
               (VAtom p (arg_repr (_first_arg_only self) args))
               (VAtom p (arg_repr (_first_arg_only self) args'))).
      * rewrite iter_set_perm, elem_of_elements. apply Hg.
        eexists. split; [apply Helem; by exists args|]. by rewrite Hp.
      * rewrite iter_set_perm, elem_of_elements. apply Hg.
        eexists. split; [apply Helem; by exists args'|]. by rewrite Hp.
      * congruence.
      * done.
  - destruct (_as_pyasp self) eqn:Hp.
    + apply sorted_Some in Hs as [Hl0 _].
      destruct (wrap_atoms_perm _ _ _ (symmetry Hl0) (wrap_atoms_items _ raw))
        as (atoms & -> & Hatoms).
      cbn [mbind option_bind builder]. unfold sorted_tuple.
      assert (member_of self <$> raw
              = (λ atom, VAtom atom.1 (arg_repr (_first_arg_only self) atom.2))
                  <$> raw) as Hmem.
      { unfold member_of, element. by rewrite Hp. }
      rewrite Hmem, (unordered_pair_perm _ _ Hatoms), <-sorted_None_iff.
      destruct (sorted atoms); cbn [fmap option_fmap option_map].
      * split; [done|]. by intros [?|[_ ?]].
      * split; [|done]. intros _. by right.
    + split; [done|]. by intros [?|[? _]].
Qed.

(** ** Traversals and runs *)

(** Every traversal ends, and yields for the answer sets it pulled what the
    loop body makes of them. *)
Lemma traverse_transformed (ho : hash_order) (self : Answers) :
  ∃ outs raised final,
    traverse ho self = Some (outs, raised, final) ∧
    Forall2 (transformed (_sorted self) self)
            (take (length outs) (_answers self)) outs ∧
    (_sorted self = false →
     raised = false ∧ length outs = length (_answers self)).
Proof.
  rewrite traverse_yields.
  destruct (yields ho (_sorted self) self (_answers self)) as [[l r] rem] eqn:E.
  exists l, r, (advance self rem). split; [reflexivity|].
  destruct (yields_spec _ _ _ _ _ _ _ E) as [Hall Hend]. split.
  - eapply Forall2_impl; [exact Hall|]. intros raw out. apply loop_body_transformed.
  - intros Hs. rewrite Hs in Hend. destruct r; [|by destruct Hend].
    destruct Hend as (raw & _ & Hnone & _).
    destruct (loop_body_unsorted ho self raw) as [? ?]. congruence.
Qed.

Lemma traverse_source (ho : hash_order) (self : Answers) :
  ∃ outs raised final,
    traverse ho self = Some (outs, raised, final) ∧
    final = advance self (drop (pulled outs raised) (_answers self)) ∧
    (pulled outs raised ≤ length (_answers self))%nat ∧
    (raised = false → pulled outs raised = length (_answers self)).
Proof.
  rewrite traverse_yields.
  destruct (yields ho (_sorted self) self (_answers self)) as [[l r] rem] eqn:E.
  exists l, r, (advance self rem). split; [reflexivity|].
  destruct (yields_spec _ _ _ _ _ _ _ E) as [_ Hend]. unfold pulled.
  destruct r.
  - destruct Hend as (raw & Hraw & _ & ->).
    apply lookup_lt_Some in Hraw.
    replace (length l + 1)%nat with (S (length l)) by lia.
    split; [done|]. split; [lia|done].
  - destruct Hend as [Hlen ->]. rewrite Nat.add_0_r, Hlen, drop_all.
    split; [done|]. split; [lia|done].
Qed.

Lemma traverse_order (ho1 ho2 : hash_order) (self : Answers)
    (src' : list raw_answer_set) :
  Forall2 (≡ₚ) (_answers self) src' →
  fst <$> traverse ho1 self = fst <$> traverse ho2 (advance self src').
Proof.
  intros Hsrc. rewrite !traverse_yields. simpl.
  change (_sorted (advance self src')) with (_sorted self).
  change (_answers (advance self src')) with src'.
  rewrite yields_advance.
  pose proof (yields_order ho1 ho2 (_sorted self) self _ _ Hsrc) as Heq.
  destruct (yields ho1 (_sorted self) self (_answers self)) as [[l r] rem],
    (yields ho2 (_sorted self) self src') as [[l' r'] rem'].
  simpl in *. by rewrite Heq.
Qed.

Lemma transformed_shaped (srt : bool) (self : Answers) (raw : raw_answer_set)
    (out : answer_set) :
  transformed srt self raw out → containers_shaped srt out.
Proof.
  unfold transformed. destruct (_group_atoms self).
  - intros (m & -> & _ & Hm). intros p c Hpc. by destruct (Hm p c Hpc).
  - by intros (c & -> & ? & _).
Qed.

(** The order in which a set is iterated is not determined. *)
Lemma traverse_delivered (ho : hash_order) (self : Answers) :
  ∃ outs raised final,
    traverse ho self = Some (outs, raised, final) ∧
    Forall2 (delivered (_sorted self) self)
            (take (length outs) (_answers self)) outs ∧
    Forall (containers_shaped (_sorted self)) outs ∧
    (_sorted self = true →
     Forall (λ raw, ¬ unsortable self raw) (take (length outs) (_answers self))) ∧
    (if raised : bool
     then _sorted self = true ∧
          ∃ raw, _answers self !! length outs = Some raw ∧ unsortable self raw
     else length outs = length (_answers self)).
Proof.
  rewrite traverse_yields.
  destruct (yields ho (_sorted self) self (_answers self)) as [[l r] rem] eqn:E.
  exists l, r, (advance self rem). split; [reflexivity|].
  destruct (yields_spec _ _ _ _ _ _ _ E) as [Hall Hend]. split; [|split; [|split]].
  - eapply Forall2_impl; [exact Hall|]. intros raw out. apply loop_body_delivered.
  - apply Forall_forall. intros out Hout.
    apply list_elem_of_lookup in Hout as [i Hi].
    destruct (Forall2_lookup_r _ _ _ _ _ Hall Hi) as (raw & _ & Hbody).
    eapply transformed_shaped. by eapply loop_body_transformed.
  - intros Hs. rewrite Hs in Hall. apply Forall_forall. intros raw Hraw.
    apply list_elem_of_lookup in Hraw as [i Hi].
    destruct (Forall2_lookup_l _ _ _ _ _ Hall Hi) as (out & _ & Hbody).
    rewrite <-(loop_body_sorted_None ho). congruence.
  - destruct r; [|by destruct Hend].
    destruct Hend as (raw & Hraw & Hnone & _).
    destruct (_sorted self) eqn:Hs.
    + split; [done|]. exists raw. split; [done|].
      by apply (loop_body_sorted_None ho).
    + destruct (loop_body_unsorted ho self raw) as [? ?]. congruence.
Qed.

Lemma hash_order_not_fixed :
  ∃ s, iterate elements_order (FrozenSet s) ≠ iterate reverse_order (FrozenSet s).
Proof.
  exists ({[VInt 0]} ∪ {[VInt 1]}). simpl.
  assert (elements ({[VInt 0]} ∪ {[VInt 1]} : gset value) ≡ₚ [VInt 0; VInt 1]) as Hp.
  { rewrite elements_union_singleton by (by rewrite elem_of_singleton).
    by rewrite elements_singleton. }
  destruct (elements ({[VInt 0]} ∪ {[VInt 1]} : gset value)) as [|x [|y [|z l]]] eqn:E.
  - by apply Permutation_nil_cons in Hp.
  - by apply Permutation_length in Hp.
  - simpl. intros [= ->].
    assert (NoDup [y; y]) as Hnd.
    { rewrite Hp. apply NoDup_cons. split; [|apply NoDup_singleton].
      by intros [=]%list_elem_of_singleton. }
    apply NoDup_cons in Hnd as [Hnd _]. apply Hnd. left.
  - by apply Permutation_length in Hp.
Qed.

Lemma size_list_to_set_le (l : list value) :
  (size (list_to_set l : gset value) ≤ length l)%nat.
Proof.
  induction l as [|v l IH].
  - by rewrite list_to_set_nil, size_empty.
  - rewrite list_to_set_cons. cbn [length].
    etrans; [apply Nat.eq_le_incl, size_union_alt|]. rewrite size_singleton.
    assert (size (list_to_set l ∖ {[v]} : gset value)
            ≤ size (list_to_set l : gset value))%nat
      by (apply subseteq_size, subseteq_difference_l; done).
    lia.
Qed.




(** * The claims *)

(** C1.  Iterating with [by_predicate] enabled yields, for every answer set
    pulled, a mapping whose keys are exactly the predicates occurring in the
    answer set (a predicate without atom is no key), each key [p] mapping to
    exactly the argument representations of the atoms of predicate [p].
    Without [sorted] every answer set of the source is so delivered. *)
Theorem by_predicate_grouping_complete (ho : hash_order) (self : Answers) :
  ∃ outs raised final,
    traverse ho (by_predicate self) = Some (outs, raised, final) ∧
    (if _sorted self then True
     else raised = false ∧ length outs = length (_answers self)) ∧
    Forall2
      (λ raw out, ∃ m,
         out = Mapping m ∧
         (∀ p, p ∈ dom m ↔ ∃ args, (p, args) ∈ raw) ∧
         (∀ p, m !! p ≠ Some (FrozenSet ∅) ∧ m !! p ≠ Some (Tuple [])) ∧
         ∀ p c, m !! p = Some c →
           ∀ v, v ∈ members c ↔
                ∃ args, (p, args) ∈ raw ∧
                  v = wrap (_as_pyasp self) p
                        (arg_repr (_first_arg_only self) args))
      (take (length outs) (_answers self)) outs.
Proof.
  destruct (traverse_transformed ho (by_predicate self))
    as (outs & raised & final & Ht & Hall & Hu).
  exists outs, raised, final. split; [done|]. split.
  { simpl in Hu. destruct (_sorted self); [done|]. by apply Hu. }
  eapply Forall2_impl; [exact Hall|]. intros raw out.
  unfold transformed. simpl. intros (m & -> & Hdom & Hm).
  exists m. split; [done|]. split; [done|]. split.
  - intros p. destruct (m !! p) as [c|] eqn:Hp; [|done].
    destruct (Hm p c Hp) as (_ & _ & Hc).
    assert (p ∈ dom m) as (args & Hin)%Hdom by (apply elem_of_dom; by eexists).
    assert (wrap (_as_pyasp self) p (arg_repr (_first_arg_only self) args)
              ∈ members c) as Hne by (apply Hc; by exists args).
    split; intros [= ->]; simpl in Hne; by apply not_elem_of_empty in Hne.
  - intros p c Hp. by apply Hm.
Qed.

(** C2.  Iterating with [first_arg_only] enabled (atoms neither grouped nor
    wrapped) turns every atom [(p, args)] into the pair of [p] with the first
    argument when there is one and with the empty tuple [()] when there is
    none; so an atom [q] without argument shows as [(q, ())], while no pair
    headed by [q] shows when [q] is absent from the answer set.  Without
    [sorted] every answer set of the source is so delivered. *)
Theorem first_arg_only_first_argument (ho : hash_order) (self : Answers) :
  _group_atoms self = false → _as_pyasp self = false →
  ∃ outs raised final,
    traverse ho (first_arg_only self) = Some (outs, raised, final) ∧
    (if _sorted self then True
     else raised = false ∧ length outs = length (_answers self)) ∧
    Forall2 first_args_of (take (length outs) (_answers self)) outs.
Proof.
  intros Hg Hp.
  destruct (traverse_transformed ho (first_arg_only self))
    as (outs & raised & final & Ht & Hall & Hu).
  exists outs, raised, final. split; [done|]. split.
  { simpl in Hu. destruct (_sorted self); [done|]. by apply Hu. }
  eapply Forall2_impl; [exact Hall|]. intros raw out.
  unfold transformed, first_args_of. simpl. rewrite Hg, Hp. simpl.
  intros (c & -> & _ & Hc). exists c. split; [done|].
  split; [exact Hc|]. split; [|split].
  - intros p x rest Hin. apply Hc. by exists p, (x :: rest).
  - intros q Hin. apply Hc. by exists q, [].
  - intros q Hq a (p & args & Hin & [-> _]%py_pair_inj)%Hc. by apply (Hq args).
Qed.


(** C4.  With [as_pyasp] enabled: when atoms are grouped by predicate the
    yielded answer set is the mapping itself, and the [Atom] objects are the
    members of its buckets, each built from the key and an argument
    representation; when atoms are not grouped the [Atom] objects, built
    from the pairs, are the members of the answer set.  Without [sorted]
    every answer set of the source is so delivered. *)
Theorem as_pyasp_wraps_inside_buckets (ho : hash_order) (self : Answers) :
  ∃ outs raised final,
    traverse ho (as_pyasp self) = Some (outs, raised, final) ∧
    (if _sorted self then True
     else raised = false ∧ length outs = length (_answers self)) ∧
    Forall2 (atoms_wrapped self) (take (length outs) (_answers self)) outs.
Proof.
  destruct (traverse_transformed ho (as_pyasp self))
    as (outs & raised & final & Ht & Hall & Hu).
  exists outs, raised, final. split; [done|]. split.
  { simpl in Hu. destruct (_sorted self); [done|]. by apply Hu. }
  eapply Forall2_impl; [exact Hall|]. intros raw out.
  unfold transformed, atoms_wrapped. simpl. destruct (_group_atoms self).
  - intros (m & -> & Hdom & Hm). exists m. split; [done|]. split; [done|].
    intros p c Hpc. by apply Hm.
  - intros (c & -> & _ & Hc). by exists c.
Qed.

(** C5.  The source is consumed at most once.  A pull either takes nothing
    from the shared source or removes its first answer set for good; a
    traversal leaves of the source what it did not pull; a complete
    traversal leaves nothing, and any traversal started afterwards,
    whatever the flags were set to meanwhile, yields the empty sequence. *)
Theorem source_consumed_at_most_once (ho : hash_order) (self : Answers) :
  (∀ g, let '(o, _, self') := gen_next ho g self in
        (o = StopIteration ∧ self' = self) ∨
        (o ≠ StopIteration ∧
         ∃ raw, _answers self = raw :: _answers self')) ∧
  ∃ outs raised final,
    traverse ho self = Some (outs, raised, final) ∧
    _answers final = drop (pulled outs raised) (_answers self) ∧
    (pulled outs raised ≤ length (_answers self))%nat ∧
    (raised = false →
     _answers final = [] ∧
     ∀ ho' acts, traverse ho' (foldr set_toggle final acts)
                 = Some ([], false, foldr set_toggle final acts)).
Proof.
  split.
  - intros g.
    assert (∀ srt, let '(o, _, self') := resume ho srt self in
              (o = StopIteration ∧ self' = self) ∨
              (o ≠ StopIteration ∧
               ∃ raw, _answers self = raw :: _answers self')) as Hres.
    { intros srt. unfold resume. destruct (_answers self) as [|raw rest] eqn:E.
      - by left.
      - destruct (loop_body ho srt self raw); right; (split; [done|by exists raw]). }
    destruct g as [|srt|]; simpl; [apply Hres|apply Hres|by left].
  - destruct (traverse_source ho self)
      as (outs & raised & final & Ht & -> & Hle & Hall).
    exists outs, raised, (advance self (drop (pulled outs raised) (_answers self))).
    split; [done|]. split; [done|]. split; [done|].
    intros Hr. rewrite (Hall Hr), drop_all. split; [done|].
    intros ho' acts.
    assert (_answers (foldr set_toggle (advance self []) acts) = []) as Hsrc.
    { induction acts as [|t acts IH]; simpl; [done|]. by destruct t. }
    rewrite traverse_yields, Hsrc. cbn [yields].
    do 2 f_equal. rewrite <-Hsrc at 2. apply advance_same.
Qed.

(** C6.  Two traversals under the same flags, of sources holding the same
    atoms answer set by answer set (in whatever order each answer set hands
    them over), and whatever the iteration order of the hashed containers,
    end the same way and yield the same answer sets.  What a traversal
    yields for an answer set is fixed by the atoms of that answer set
    ([delivered]): the container built first is, with [sorted], the tuple of
    all its items in increasing order and, without, the set of its items;
    without [by_predicate] that container (or the one of the wrapped atoms)
    is what is yielded, and with [by_predicate] the value yielded is a
    dictionary, whose keys are the predicates of that container and whose
    buckets are, with [sorted], tuples in strictly increasing order and,
    without, sets, holding the arguments (or wrapped atoms) of their
    predicate.  With [sorted] the traversal yields one such value for every
    answer set up to the first one whose items do not all compare, where it
    raises; without [sorted] it yields one for every answer set, the values
    being sets whose iteration order is not determined. *)
Theorem sorted_determinism (ho1 ho2 : hash_order) (self : Answers)
    (src' : list raw_answer_set) :
  Forall2 (≡ₚ) (_answers self) src' →
  fst <$> traverse ho1 self = fst <$> traverse ho2 (advance self src') ∧
  (∃ outs raised final,
     traverse ho1 self = Some (outs, raised, final) ∧
     Forall2 (delivered (_sorted self) self)
             (take (length outs) (_answers self)) outs ∧
     Forall (containers_shaped (_sorted self)) outs ∧
     (if _sorted self
      then Forall (λ raw, ¬ unsortable self raw)
                  (take (length outs) (_answers self)) ∧
           (if raised : bool
            then ∃ raw, _answers self !! length outs = Some raw ∧
                        unsortable self raw
            else length outs = length (_answers self))
      else raised = false ∧ length outs = length (_answers self))) ∧
  ∃ s, iterate elements_order (FrozenSet s) ≠ iterate reverse_order (FrozenSet s).
Proof.
  intros Hsrc. split; [by apply traverse_order|]. split; [|apply hash_order_not_fixed].
  destruct (traverse_delivered ho1 self)
    as (outs & raised & final & Ht & Hall & Hshape & Hfine & Hend).
  exists outs, raised, final. split; [done|]. split; [done|]. split; [done|].
  destruct (_sorted self).
  - split; [by apply Hfine|]. destruct raised; [|done]. by destruct Hend.
  - destruct raised; [|done]. by destruct Hend.
Qed.


(** C8.  Decoding the atoms [concept(0)], [extent(0,a)], [extent(0,b)],
    [intent(0,c)], [intent(0,d)] with the decoder of [ConceptList] (one
    [concept], all [extent], all [intent]) gives exactly one object, of
    [id] 0, [extent] {a, b} and [intent] {c, d}. *)
Theorem decode_concept_zero :
  decode [ConceptList_decoder] concept_zero =
    [Some {| id := 0;
             extent := {[VStr "a"; VStr "b"]};
             intent := {[VStr "c"; VStr "d"]} |}].
Proof.
  assert (decode [ConceptList_decoder] concept_zero =
            [ConceptList__init__ [VInt 0]
               [[VInt 0; VStr "a"]; [VInt 0; VStr "b"]]
               [[VInt 0; VStr "c"]; [VInt 0; VStr "d"]]]) as ->
    by (vm_compute; reflexivity).
  unfold ConceptList__init__.
  assert (∀ x y, select_by_id 0 [[VInt 0; x]; [VInt 0; y]] = Some [x; y]) as Hsel.
  { intros x y. reflexivity. }
  cbn [head py_int mbind option_bind]. rewrite !Hsel.
  cbn [mbind option_bind].
  assert (∀ x y : value, list_to_set [x; y] = ({[x; y]} : gset value)) as Hset.
  { intros x y. rewrite !list_to_set_cons, list_to_set_nil.
    by rewrite (right_id_L ∅ (∪)). }
  by rewrite !Hset.
Qed.

(** C9.  Configuration is idempotent: setting a toggle twice leaves the
    transformer in the state setting it once does, and every traversal that
    follows produces the same output in both cases. *)
Theorem set_toggle_idempotent (t : toggle) (self : Answers) :
  set_toggle t (set_toggle t self) = set_toggle t self ∧
  ∀ ho, traverse ho (set_toggle t (set_toggle t self)) =
        traverse ho (set_toggle t self).
Proof.
  assert (set_toggle t (set_toggle t self) = set_toggle t self) as Heq
    by (by destruct t).
  split; [exact Heq|]. intros ho. by rewrite Heq.
Qed.

(** C10.  Without [sorted] an answer set is a set: it never has more members
    than the raw answer set had atoms, and atoms with equal images merge.
    Under [first_arg_only] two atoms with the same predicate and the same
    first argument become the one pair of that predicate and argument,
    whatever their other arguments: a raw answer set of two atoms yields an
    answer set of a single member. *)
Theorem unsorted_answer_set_merges (ho : hash_order) (p : string) (x : value)
    (ys zs : list value) (self : Answers) :
  (∀ raw, _group_atoms self = false → _as_pyasp self = false →
          ∃ s, loop_body ho false self raw = Some (Flat (FrozenSet s)) ∧
               (size s ≤ length raw)%nat) ∧
  traverse ho (first_arg_only (__init__ [[(p, x :: ys); (p, x :: zs)]]))
    = Some ([Flat (FrozenSet {[py_pair p x]})], false, first_arg_only (__init__ [])) ∧
  (size ({[py_pair p x]} : gset value) < length [(p, x :: ys); (p, x :: zs)])%nat.
Proof.
  split; [|split].
  - intros raw Hg Hp. rewrite loop_body_first_container, builder_frozenset.
    simpl. rewrite Hg, Hp. eexists. split; [done|].
    rewrite <-(length_fmap (item_of (_first_arg_only self)) raw).
    apply size_list_to_set_le.
  - assert (loop_body ho false
              (first_arg_only (__init__ [[(p, x :: ys); (p, x :: zs)]]))
              [(p, x :: ys); (p, x :: zs)]
            = Some (Flat (FrozenSet {[py_pair p x]}))) as Hbody.
    { rewrite loop_body_first_container, builder_frozenset.
      cbn [_first_arg_only _group_atoms _as_pyasp first_arg_only __init__
           mbind option_bind fmap list_fmap item_of arg_repr first_or_empty fst snd].
      do 3 f_equal. rewrite !list_to_set_cons, list_to_set_nil.
      change (item_of true (p, x :: ys)) with (py_pair p x).
      change (item_of true (p, x :: zs)) with (py_pair p x).
      apply set_eq. intros v. rewrite !elem_of_union, !elem_of_singleton.
      split; [|by left].
      intros [?|[?|Hv]]; [done|done|by apply not_elem_of_empty in Hv]. }
    rewrite traverse_yields.
    cbn [yields _answers _sorted first_arg_only __init__]. by rewrite Hbody.
  - rewrite size_singleton. simpl. lia.
Qed.

(** * Further properties of [Answers] *)

Lemma yields_default (ho : hash_order) (self : Answers)
    (src : list raw_answer_set) :
  _first_arg_only self = false → _group_atoms self = false →
  _as_pyasp self = false →
  yields ho false self src =
    ((λ raw, Flat (FrozenSet (list_to_set
        ((λ '(pred, args), py_pair pred (VTuple args)) <$> raw)))) <$> src,
     false, []).
Proof.
  intros Hf Hg Hp. induction src as [|raw src IH]; [done|].
  cbn [yields]. unfold loop_body. rewrite Hf, Hg, Hp, IH. done.
Qed.

(** X1.  An [Answers] object left as [__init__] made it yields, for every
    answer set of the source and in the order of the source, the frozenset
    of the pairs [(pred, tuple(args))]; the traversal never raises and
    leaves the source empty. *)
Theorem default_traversal (ho : hash_order) (src : list raw_answer_set) :
  traverse ho (__init__ src) =
    Some ((λ raw, Flat (FrozenSet (list_to_set
             ((λ '(pred, args), py_pair pred (VTuple args)) <$> raw)))) <$> src,
          false, __init__ []).
Proof.
  rewrite traverse_yields.
  change (_sorted (__init__ src)) with false.
  change (_answers (__init__ src)) with src.
  by rewrite yields_default.
Qed.

(** X2.  Whatever properties are touched, in whatever order and however
    often, the source is left alone, a flag is set exactly when it was set
    before or its property was touched, and no flag is ever cleared; so two
    chains touching the same properties configure the object alike. *)
Theorem configuration_sets_flags (ts : list toggle) (self : Answers) :
  _answers (foldr set_toggle self ts) = _answers self ∧
  _first_arg_only (foldr set_toggle self ts)
    = _first_arg_only self || bool_decide (FirstArgOnly ∈ ts) ∧
  _group_atoms (foldr set_toggle self ts)
    = _group_atoms self || bool_decide (ByPredicate ∈ ts) ∧
  _as_pyasp (foldr set_toggle self ts)
    = _as_pyasp self || bool_decide (AsPyasp ∈ ts) ∧
  _sorted (foldr set_toggle self ts)
    = _sorted self || bool_decide (Sorted ∈ ts) ∧
  ∀ ts', (∀ t, t ∈ ts ↔ t ∈ ts') →
         foldr set_toggle self ts' = foldr set_toggle self ts.
Proof.
  assert (∀ ts,
    _answers (foldr set_toggle self ts) = _answers self ∧
    _first_arg_only (foldr set_toggle self ts)
      = _first_arg_only self || bool_decide (FirstArgOnly ∈ ts) ∧
    _group_atoms (foldr set_toggle self ts)
      = _group_atoms self || bool_decide (ByPredicate ∈ ts) ∧
    _as_pyasp (foldr set_toggle self ts)
      = _as_pyasp self || bool_decide (AsPyasp ∈ ts) ∧
    _sorted (foldr set_toggle self ts)
      = _sorted self || bool_decide (Sorted ∈ ts)) as Hflags.
  { clear ts. induction ts as [|t ts (Ha & Hf & Hg & Hp & Hs)].
    - cbn [foldr]. rewrite !bool_decide_eq_false_2 by apply not_elem_of_nil.
      by rewrite !orb_false_r.
    - cbn [foldr].
      assert (∀ t', bool_decide (t' ∈ t :: ts)
                    = bool_decide (t' = t) || bool_decide (t' ∈ ts)) as Hin.
      { intros t'. apply eq_true_iff_eq.
        rewrite orb_true_iff, !bool_decide_eq_true. apply elem_of_cons. }
      rewrite !Hin.
      destruct t; cbn [set_toggle first_arg_only by_predicate as_pyasp sorted_
                       _answers _first_arg_only _group_atoms _as_pyasp _sorted];
        rewrite ?Ha, ?Hf, ?Hg, ?Hp, ?Hs;
        repeat (rewrite bool_decide_eq_true_2 by done);
        repeat (rewrite bool_decide_eq_false_2 by done);
        cbn [orb]; rewrite ?orb_true_r; done. }
  destruct (Hflags ts) as (Ha & Hf & Hg & Hp & Hs).
  do 5 (split; [done|]).
  intros ts' Hts. destruct (Hflags ts') as (Ha' & Hf' & Hg' & Hp' & Hs').
  assert (∀ t, bool_decide (t ∈ ts') = bool_decide (t ∈ ts)) as Hb.
  { intros t. apply bool_decide_ext. by rewrite Hts. }
  rewrite !Hb in *.
  destruct (foldr set_toggle self ts'), (foldr set_toggle self ts).
  simpl in *. congruence.
Qed.

(** X3.  With [sorted] and without grouping nothing merges: the tuple
    yielded holds one member for every atom of the raw answer set,
    repetitions included, in increasing order. *)
Theorem sorted_flat_keeps_every_atom (ho : hash_order) (self : Answers)
    (raw : raw_answer_set) (out : answer_set) :
  _group_atoms self = false →
  loop_body ho true self raw = Some out →
  ∃ l, out = Flat (Tuple l) ∧
       l ≡ₚ member_of self <$> raw ∧
       length l = length raw ∧
       StronglySorted py_le l.
Proof.
  intros Hg Hbody.
  destruct (loop_body_sorted_flat ho self raw out Hg Hbody) as (l & -> & Hl & Hs).
  exists l. split; [done|]. split; [done|]. split; [|done].
  by rewrite Hl, length_fmap.
Qed.

(** X4.  With [sorted] and without [as_pyasp], pulling an answer set raises
    exactly when two of its atoms have the same predicate and argument
    representations that differ and that [<] does not order; grouping the
    atoms by predicate neither adds nor removes a failure. *)
Theorem sorted_raises_iff (ho : hash_order) (self : Answers)
    (raw : raw_answer_set) :
  _as_pyasp self = false →
  loop_body ho true self raw = None ↔
  ∃ p args args',
    (p, args) ∈ raw ∧ (p, args') ∈ raw ∧
    arg_repr (_first_arg_only self) args ≠ arg_repr (_first_arg_only self) args' ∧
    py_lt (arg_repr (_first_arg_only self) args)
          (arg_repr (_first_arg_only self) args') = None.
Proof.
  intros Hp. rewrite loop_body_sorted_None. unfold unsortable. rewrite Hp.
  split; [|by left]. intros [?|[? _]]; done.
Qed.


(** X5.  With [sorted] and [by_predicate] every bucket increases strictly:
    the argument representations of a predicate are merged before they are
    ordered, so none is repeated in its bucket. *)
Theorem sorted_buckets_strictly_increase (ho : hash_order) (self : Answers)
    (raw : raw_answer_set) (m : gmap string container) :
  loop_body ho true self raw = Some (Mapping m) →
  ∀ p c, m !! p = Some c → ∃ l, c = Tuple l ∧ strictly_increasing l.
Proof.
  intros Hbody%loop_body_transformed p c Hpc. unfold transformed in Hbody.
  destruct (_group_atoms self).
  - destruct Hbody as (m' & [= <-] & _ & Hm).
    destruct (Hm p c Hpc) as ((l & -> & Hs) & Hnd & _).
    exists l. split; [done|]. apply sorted_NoDup_strict; [done|]. by apply Hnd.
  - by destruct Hbody as (c' & [=] & _).
Qed.

(** X6.  An empty answer set goes through under every configuration: it is
    yielded as the empty mapping when atoms are grouped, as the empty tuple
    under [sorted], as the empty frozenset otherwise, and nothing raises. *)
Theorem empty_answer_set (ho : hash_order) (srt : bool) (self : Answers) :
  loop_body ho srt self [] =
    Some (if _group_atoms self then Mapping ∅
          else Flat (if srt then Tuple [] else FrozenSet ∅)).
Proof.
  rewrite loop_body_first_container.
  assert (builder srt (item_of (_first_arg_only self) <$> [])
          = Some (if srt then Tuple [] else FrozenSet ∅)) as ->
    by (by destruct srt).
  cbn [mbind option_bind].
  assert (iterate ho (if srt then Tuple [] else FrozenSet ∅) = []) as ->.
  { destruct srt; [done|]. cbn [iterate].
    apply Permutation_nil_r. by rewrite iter_set_perm, elements_empty. }
  destruct (_group_atoms self).
  - cbn [group_loop foldl mbind option_bind]. unfold build_mapping.
    rewrite map_to_list_empty. done.
  - destruct (_as_pyasp self); [|done]. by destruct srt.
Qed.

(** X7.  Without [sorted] only the set of atoms of a raw answer set counts:
    handing over an atom twice, or the atoms in another order, changes
    nothing of the answer set yielded. *)
Theorem unsorted_reads_atoms_as_set (ho : hash_order) (self : Answers)
    (raw raw' : raw_answer_set) :
  (∀ atom, atom ∈ raw ↔ atom ∈ raw') →
  loop_body ho false self raw = loop_body ho false self raw'.
Proof.
  intros Hraw. rewrite !loop_body_first_container, !builder_frozenset.
  assert (list_to_set (item_of (_first_arg_only self) <$> raw)
          = (list_to_set (item_of (_first_arg_only self) <$> raw') : gset value))
    as ->; [|done].
  apply set_eq. intros v. rewrite !elem_of_list_to_set, !list_elem_of_fmap.
  split; intros (atom & -> & Hin); exists atom; (split; [done|]); by apply Hraw.
Qed.

(** X8.  An answer set that raises ends its traversal for good: the raw
    answer set is gone from the source, the generator answers every later
    [next] by [StopIteration] although answer sets are left, and these are
    reached only by a new traversal. *)
Theorem raise_closes_generator (ho : hash_order) (n : nat) (self : Answers)
    (raw : raw_answer_set) (rest : list raw_answer_set) :
  _answers self = raw :: rest →
  loop_body ho (_sorted self) self raw = None →
  run ho (replicate (S n) Pull) (__iter__ self) self
    = Raised :: replicate n StopIteration ∧
  traverse ho self = Some ([], true, advance self rest) ∧
  fst <$> traverse ho (advance self rest)
    = Some (yields ho (_sorted self) self rest).1.
Proof.
  intros Hsrc Hnone. split; [|split].
  - cbn [replicate run gen_next __iter__]. unfold resume. rewrite Hsrc, Hnone.
    f_equal. clear. induction n as [|n IH]; [done|].
    cbn [replicate run gen_next]. by rewrite IH.
  - rewrite traverse_yields, Hsrc. cbn [yields]. by rewrite Hnone.
  - rewrite traverse_yields.
    change (_sorted (advance self rest)) with (_sorted self).
    change (_answers (advance self rest)) with rest.
    rewrite yields_advance.
    by destruct (yields ho (_sorted self) self rest) as [[l r] rem].
Qed.

(** X9.  Calling [next] on the object [n] times gives, one call after the
    other, what pulling each of the first [n] answer sets of the source
    gives under the current flags, then [StopIteration] once the source is
    empty, and leaves the source advanced by [n]; as each call starts a
    generator of its own, an answer set that raised does not keep the next
    call from reaching the following one. *)
Theorem next_times_enumerates (ho : hash_order) (n : nat) (self : Answers) :
  next_times ho n self =
    (((outcome_of ho (_sorted self) self <$> take n (_answers self))
        ++ replicate (n - length (_answers self)) StopIteration)%list,
     advance self (drop n (_answers self))).
Proof.
  revert self. induction n as [|n IH]; intros self.
  { cbn [next_times take drop]. by rewrite advance_same. }
  cbn [next_times]. unfold __next__, __iter__. cbn [gen_next]. unfold resume.
  destruct (_answers self) as [|raw rest] eqn:Hsrc.
  - rewrite IH, Hsrc, !take_nil, !drop_nil.
    cbn [fmap list_fmap length app]. by rewrite !Nat.sub_0_r.
  - cbn [take drop fmap list_fmap length app Nat.sub].
    assert (∀ o, outcome_of ho (_sorted self) self raw = o →
              (let '(os, final) := next_times ho n (advance self rest) in
               (o :: os, final))
              = ((outcome_of ho (_sorted self) self raw
                   :: (outcome_of ho (_sorted self) self <$> take n rest)
                   ++ replicate (n - length rest) StopIteration)%list,
                 advance self (drop n rest))) as Hstep.
    { intros o <-. rewrite IH.
      change (_answers (advance self rest)) with rest.
      change (_sorted (advance self rest)) with (_sorted self).
      by rewrite advance_advance. }
    destruct (loop_body ho (_sorted self) self raw) as [a|] eqn:E;
      cbn beta iota; apply Hstep; unfold outcome_of; by rewrite E.
Qed.

Lemma element_inj (pyasp : bool) (p q : string) (a b : value) :
  element pyasp p a = element pyasp q b → p = q ∧ a = b.
Proof. unfold element. destruct pyasp; by intros [= -> ->]. Qed.

(** X10.  Grouping loses and adds nothing: under the same other flags, the
    member built from predicate [p] and representation [a] is in the flat
    answer set exactly when the grouped answer set has a bucket for [p]
    holding the element built from [a]. *)
Theorem grouping_keeps_members (ho : hash_order) (srt : bool) (self : Answers)
    (raw : raw_answer_set) (c : container) (m : gmap string container) :
  _group_atoms self = false →
  loop_body ho srt self raw = Some (Flat c) →
  loop_body ho srt (by_predicate self) raw = Some (Mapping m) →
  ∀ p a, element (_as_pyasp self) p a ∈ members c ↔
         ∃ bucket, m !! p = Some bucket ∧
                   wrap (_as_pyasp self) p a ∈ members bucket.
Proof.
  intros Hg Hflat%loop_body_transformed Hgrouped%loop_body_transformed p a.
  unfold transformed in Hflat, Hgrouped. rewrite Hg in Hflat.
  cbn [by_predicate _group_atoms _as_pyasp _first_arg_only] in Hgrouped.
  destruct Hflat as (c' & [= <-] & _ & Hc).
  destruct Hgrouped as (m' & [= <-] & Hdom & Hm).
  rewrite Hc. split.
  - intros (q & args & Hin & [-> ->]%element_inj).
    assert (q ∈ dom m) as [bucket Hb]%elem_of_dom by (apply Hdom; by exists args).
    exists bucket. split; [done|].
    destruct (Hm q bucket Hb) as (_ & _ & Hbucket). apply Hbucket. by exists args.
  - intros (bucket & Hb & Hin).
    destruct (Hm p bucket Hb) as (_ & _ & Hbucket).
    apply Hbucket in Hin as (args & Hin & Heq).
    exists p, args. split; [done|].
    unfold wrap in Heq. unfold element.
    destruct (_as_pyasp self); by simplify_eq.
Qed.

Lemma run_closed (ho : hash_order) (n : nat) (self : Answers) :
  run ho (replicate n Pull) GenClosed self = replicate n StopIteration.
Proof.
  induction n as [|n IH]; [done|]. cbn [replicate run gen_next]. by rewrite IH.
Qed.

Lemma run_suspended (ho : hash_order) (srt : bool) (n : nat) (self : Answers) :
  Forall (λ raw, loop_body ho srt self raw ≠ None) (_answers self) →
  run ho (replicate n Pull) (GenSuspended srt) self
    = ((outcome_of ho srt self <$> take n (_answers self))
         ++ replicate (n - length (_answers self)) StopIteration)%list.
Proof.
  revert self. induction n as [|n IH]; intros self Hall; [done|].
  cbn [replicate run gen_next]. unfold resume.
  destruct (_answers self) as [|raw rest] eqn:Hsrc.
  - rewrite run_closed. by rewrite take_nil.
  - apply Forall_cons in Hall as [Hraw Hrest].
    cbn [take fmap list_fmap length app Nat.sub]. unfold outcome_of at 1.
    destruct (loop_body ho srt self raw) as [a|]; [|done].
    rewrite IH by done.
    change (_answers (advance self rest)) with rest. done.
Qed.

(** X16.  As long as no answer set raises, pulling [n] times from one
    generator and calling [next] [n] times on the object give the same
    answer sets, then the same [StopIteration]s. *)
Theorem one_generator_or_repeated_next (ho : hash_order) (n : nat)
    (self : Answers) :
  Forall (λ raw, loop_body ho (_sorted self) self raw ≠ None) (_answers self) →
  run ho (replicate n Pull) (__iter__ self) self = (next_times ho n self).1.
Proof.
  intros Hall. rewrite next_times_enumerates. cbn [fst].
  rewrite <-(run_suspended ho (_sorted self) n self Hall).
  by destruct n.
Qed.

(** * The constructors of [test_decoder.py] *)

Lemma select_by_id_Some (n : Z) (rows : list (list value)) (l : list value) :
  select_by_id n rows = Some l →
  Forall (λ r, length r = 2%nat) rows ∧ ∀ v, v ∈ l ↔ [VInt n; v] ∈ rows.
Proof.
  revert l. induction rows as [|r rows IH]; intros l.
  { intros [= <-]. split; [constructor|]. intros v.
    split; by intros ?%not_elem_of_nil. }
  destruct r as [|nb [|arg [|? ?]]]; try done. cbn [select_by_id].
  destruct (select_by_id n rows) as [rest|]; [|done]. cbn [mbind option_bind].
  destruct (IH rest eq_refl) as [Hlen Hrest]. intros [= <-].
  split; [by constructor|]. intros v.
  destruct (decide (nb = VInt n)) as [->|Hne].
  - rewrite !elem_of_cons, Hrest. split.
    + intros [->|?]; [by left|by right].
    + intros [[= ->]|?]; [by left|by right].
  - rewrite elem_of_cons, Hrest. split; [by right|].
    intros [[= <- _]|?]; done.
Qed.

Lemma select_by_id_None (n : Z) (rows : list (list value)) :
  select_by_id n rows = None → Exists (λ r, length r ≠ 2%nat) rows.
Proof.
  induction rows as [|r rows IH]; [done|].
  destruct r as [|nb [|arg [|? ?]]]; try (by intros _; left).
  cbn [select_by_id]. destruct (select_by_id n rows) as [rest|]; [done|].
  intros _. right. by apply IH.
Qed.

Lemma select_by_id_is_Some (n : Z) (rows : list (list value)) :
  is_Some (select_by_id n rows) ↔ Forall (λ r, length r = 2%nat) rows.
Proof.
  split.
  - intros [l Hl]. by apply select_by_id_Some in Hl as [? _].
  - intros Hall. destruct (select_by_id n rows) as [l|] eqn:E; [by eexists|].
    apply select_by_id_None in E. apply Exists_exists in E as (r & Hin & Hlen).
    by apply (proj1 (Forall_forall _ _) Hall) in Hin.
Qed.

(** X11.  A [ConceptList] built for the identifier [n] keeps, as [extent]
    and as [intent], exactly the second items of the rows whose first item
    equals [n]; rows of another identifier leave no trace. *)
Theorem ConceptList_init_selects (n : Z) (concept : list value)
    (ext_rows int_rows : list (list value)) (c : ConceptList) :
  ConceptList__init__ (VInt n :: concept) ext_rows int_rows = Some c →
  id c = n ∧
  (∀ v, v ∈ extent c ↔ [VInt n; v] ∈ ext_rows) ∧
  (∀ v, v ∈ intent c ↔ [VInt n; v] ∈ int_rows).
Proof.
  unfold ConceptList__init__. cbn [head py_int mbind option_bind].
  destruct (select_by_id n ext_rows) as [ext|] eqn:He; [|done].
  destruct (select_by_id n int_rows) as [int|] eqn:Hi; [|done].
  cbn [mbind option_bind]. intros [= <-]. cbn [id extent intent].
  apply select_by_id_Some in He as [_ He], Hi as [_ Hi].
  split; [done|]. split; intros v; by rewrite elem_of_list_to_set.
Qed.

(** X12.  Building a [ConceptList] raises when [concept] is empty; for an
    integer identifier it succeeds exactly when every row of [extent] and
    of [intent] has two items, rows of other identifiers included. *)
Theorem ConceptList_init_defined (n : Z) (concept : list value)
    (ext_rows int_rows : list (list value)) :
  ConceptList__init__ [] ext_rows int_rows = None ∧
  (is_Some (ConceptList__init__ (VInt n :: concept) ext_rows int_rows) ↔
   Forall (λ r, length r = 2%nat) ext_rows ∧
   Forall (λ r, length r = 2%nat) int_rows).
Proof.
  split; [done|].
  rewrite <-!(select_by_id_is_Some n).
  unfold ConceptList__init__. cbn [head py_int mbind option_bind].
  destruct (select_by_id n ext_rows) as [ext|]; cbn [mbind option_bind].
  - destruct (select_by_id n int_rows) as [int|]; cbn [mbind option_bind].
    + split; [by (split; eexists)|by eexists].
    + split; [by intros [? ?]|by intros [_ [? ?]]].
  - split; [by intros [? ?]|by intros [[? ?] _]].
Qed.

(** X13.  A [ConceptList] depends on its rows as sets only: two calls whose
    [extent] rows, and whose [intent] rows, are the same up to order and
    repetition build equal objects, or both raise. *)
Theorem ConceptList_init_rows_as_sets (concept : list value)
    (ext_rows ext_rows' int_rows int_rows' : list (list value)) :
  (∀ r, r ∈ ext_rows ↔ r ∈ ext_rows') →
  (∀ r, r ∈ int_rows ↔ r ∈ int_rows') →
  ConceptList__init__ concept ext_rows int_rows
    = ConceptList__init__ concept ext_rows' int_rows'.
Proof.
  intros He Hi. unfold ConceptList__init__.
  destruct (head concept) as [c0|]; [|done]. cbn [mbind option_bind].
  destruct (py_int c0) as [n|]; [|done]. cbn [mbind option_bind].
  assert (∀ rows rows', (∀ r, r ∈ rows ↔ r ∈ rows') →
            (list_to_set <$> select_by_id n rows : option (gset value))
            = list_to_set <$> select_by_id n rows') as Hsel.
  { intros rows rows' Hrows.
    destruct (select_by_id n rows) as [l|] eqn:E,
      (select_by_id n rows') as [l'|] eqn:E'; cbn [fmap option_fmap option_map].
    - apply select_by_id_Some in E as [_ E], E' as [_ E'].
      f_equal. apply set_eq. intros v.
      by rewrite !elem_of_list_to_set, E, E', Hrows.
    - apply select_by_id_Some in E as [E _]. apply select_by_id_None in E'.
      apply Exists_exists in E' as (r & Hin%Hrows & Hlen).
      by apply (proj1 (Forall_forall _ _) E) in Hin.
    - apply select_by_id_Some in E' as [E' _]. apply select_by_id_None in E.
      apply Exists_exists in E as (r & Hin%Hrows & Hlen).
      by apply (proj1 (Forall_forall _ _) E') in Hin.
    - done. }
  pose proof (Hsel _ _ He) as Hext. pose proof (Hsel _ _ Hi) as Hint.
  destruct (select_by_id n ext_rows), (select_by_id n ext_rows'),
    (select_by_id n int_rows), (select_by_id n int_rows');
    cbn [fmap option_fmap option_map mbind option_bind] in *; congruence.
Qed.

Lemma select_single_prefixed (rows : list (list value)) :
  select_by_id 0 ((λ r, VInt 0 :: r) <$> rows) = select_single rows.
Proof.
  induction rows as [|r rows IH]; [done|].
  cbn [fmap list_fmap]. fold (list_fmap _ _ (λ r, VInt 0 :: r) rows).
  change (list_fmap (list value) (list value) (λ r, VInt 0 :: r) rows)
    with ((λ r, VInt 0 :: r) <$> rows).
  destruct r as [|arg [|? ?]]; cbn [select_by_id select_single]; [done| |done].
  rewrite IH. destruct (select_single rows); [|done].
  cbn [mbind option_bind]. by rewrite decide_True.
Qed.

(** X14.  A [ConceptGen] is the [ConceptList] of identifier 0 built from the
    same rows with the identifier put in front of each: the same object, or
    an exception in both cases (a row of [ConceptGen] that has not exactly
    one item). *)
Theorem ConceptGen_is_ConceptList_zero (ext_rows int_rows : list (list value)) :
  ConceptGen__init__ ext_rows int_rows
    = ConceptList__init__ [VInt 0] ((λ r, VInt 0 :: r) <$> ext_rows)
                                   ((λ r, VInt 0 :: r) <$> int_rows).
Proof.
  unfold ConceptGen__init__, ConceptList__init__.
  cbn [head py_int mbind option_bind]. by rewrite !select_single_prefixed.
Qed.

(** The numeral [str] writes for an integer is read back by [int]. *)
Lemma read_digits_acc (d : Decimal.uint) (p : positive) :
  read_digits (Z.pos p) true (NilEmpty.string_of_uint d)
  = Some (Z.pos (Pos.of_uint_acc d p)).
Proof.
  revert p. induction d; intros p; cbn [NilEmpty.string_of_uint Pos.of_uint_acc];
    [done|..]; cbn [read_digits];
    (match goal with |- context [digit_value ?c] =>
       let v := eval vm_compute in (digit_value c) in
       change (digit_value c) with v end);
    cbv iota; rewrite <-IHd; f_equal; lia.
Qed.

Lemma read_digits_uint (d : Decimal.uint) :
  read_digits 0 true (NilEmpty.string_of_uint d) = Some (Z.of_N (Pos.of_uint d)).
Proof.
  induction d; cbn [NilEmpty.string_of_uint Pos.of_uint]; [done|..];
    cbn [read_digits];
    (match goal with |- context [digit_value ?c] =>
       let v := eval vm_compute in (digit_value c) in
       change (digit_value c) with v end);
    cbv iota; [exact IHd|..]; apply read_digits_acc.
Qed.

Lemma read_digits_start (d : Decimal.uint) :
  d ≠ Decimal.Nil →
  read_digits 0 false (NilEmpty.string_of_uint d) = Some (Z.of_N (Pos.of_uint d)).
Proof.
  intros Hd. rewrite <-read_digits_uint. destruct d; [done|..]; reflexivity.
Qed.

Lemma int_of_str_uint (d : Decimal.uint) :
  d ≠ Decimal.Nil →
  int_of_str (NilEmpty.string_of_uint d)
  = read_digits 0 false (NilEmpty.string_of_uint d).
Proof. intros Hd. destruct d; [done|..]; reflexivity. Qed.

Lemma string_of_pos (p : positive) :
  Pos.to_uint p ≠ Decimal.Nil ∧
  NilZero.string_of_uint (Pos.to_uint p) = NilEmpty.string_of_uint (Pos.to_uint p).
Proof.
  assert (Pos.to_uint p ≠ Decimal.Nil) as Hd.
  { intros E. pose proof (DecimalPos.Unsigned.of_to p) as H. by rewrite E in H. }
  split; [done|]. by destruct (Pos.to_uint p).
Qed.

Lemma int_of_str_int (n : Z) : int_of_str (py_str_int n) = Some n.
Proof.
  unfold py_str_int.
  destruct n as [|p|p]; [reflexivity|..]; cbn [Z.to_int NilZero.string_of_int];
    destruct (string_of_pos p) as [Hd ->].
  - rewrite int_of_str_uint, read_digits_start by done.
    by rewrite DecimalPos.Unsigned.of_to.
  - unfold int_of_str. cbn [skip_blanks].
    change (py_isspace "-") with false. cbv iota.
    change (Ascii.eqb "-" "-") with true. cbv iota.
    rewrite read_digits_start by done.
    by rewrite DecimalPos.Unsigned.of_to.
Qed.

Lemma py_int_of_str_int (n : Z) : py_int (VStr (py_str_int n)) = Some n.
Proof. apply int_of_str_int. Qed.





End clyngor.

(** * Concrete runs

    The lemmas below run the model on concrete inputs.  Unless another order
    is named they are stated for [Atom] objects without an order. *)

#[global] Existing Instance no_atom_order.

(** One order that meets the assumptions of [AtomOrder] and answers: [Atom]
    objects ordered as the pairs of their fields are, as the instances of a
    named tuple would be.  No property above depends on it; it serves the
    example [grouped_sorted_atoms_as_pairs] only. *)
Definition atoms_as_pairs : AtomOrder.
Proof.
  refine {| atom_lt := λ p x q y,
              if decide (p = q)
              then (if decide (x = y) then Some false else py_lt x y)
              else Some (String.ltb p q) |}.
  - intros p x q y. repeat case_decide; simplify_eq; try done.
    + apply py_lt_asym.
    + intros [= Hlt]. f_equal. by apply string_ltb_asym.
  - intros p x q y. repeat case_decide; simplify_eq; try done; try (by left).
    + intros [?|?]%py_lt_total; [done|by right].
    + intros [= [?|Hlt]%string_ltb_total]; [done|right; by f_equal].
  - intros p x q y r z. repeat case_decide; simplify_eq; try done.
    all: intros Hlt1 Hlt2; simplify_eq.
    all: try (by eapply py_lt_trans).
    all: try (apply py_lt_asym in Hlt1; congruence).
    all: try (apply string_ltb_asym in Hlt1; congruence).
    f_equal. by eapply string_ltb_trans.
Defined.

(** ** The model at work *)

Example grouped_sorted :
  loop_body elements_order true (with_flags false true false true) example_atoms
  = Some (Mapping
            (<["q" := Tuple [VTuple []]]>
               {["p" := Tuple [VTuple [VInt 1; VInt 7]; VTuple [VInt 2; VInt 5];
                               VTuple [VInt 2; VInt 6]]]})).
Proof. vm_compute. reflexivity. Qed.

Example grouped_sorted_first_arg :
  loop_body reverse_order true (with_flags true true false true) example_atoms
  = Some (Mapping
            (<["q" := Tuple [VTuple []]]> {["p" := Tuple [VInt 1; VInt 2]]})).
Proof. vm_compute. reflexivity. Qed.

Example grouped_sorted_atoms_as_pairs :
  loop_body (ao := atoms_as_pairs) reverse_order true
            (with_flags true true true true) example_atoms
  = Some (Mapping
            (<["q" := Tuple [VAtom "q" (VTuple [])]]>
               {["p" := Tuple [VAtom "p" (VInt 1); VAtom "p" (VInt 2)]]})).
Proof. vm_compute. reflexivity. Qed.

Example grouped_sorted_atoms_without_order :
  loop_body reverse_order true (with_flags true true true true) example_atoms
  = None.
Proof. vm_compute. reflexivity. Qed.

Example sorted_first_arg_keeps_repetitions :
  loop_body elements_order true (with_flags true false false true) example_atoms
  = Some (Flat (Tuple [py_pair "p" (VInt 1); py_pair "p" (VInt 2);
                       py_pair "p" (VInt 2); py_pair "q" (VTuple [])])).
Proof. vm_compute. reflexivity. Qed.

Example sorted_first_arg_type_error :
  loop_body elements_order true (with_flags true false false true)
            (("q", [VInt 1]) :: example_atoms)
  = None.
Proof. vm_compute. reflexivity. Qed.

Example int_of_numeric_strings :
  py_int (VStr "0") = Some 0 ∧
  py_int (VStr " -1_000 ") = Some (-1000) ∧
  py_int (VStr "+007") = Some 7 ∧
  py_int (VStr "1__0") = None ∧
  py_int (VStr "1_") = None ∧
  py_int (VStr "- 1") = None ∧
  py_int (VStr "1 2") = None ∧
  py_int (VStr "a") = None ∧
  py_int (VStr EmptyString) = None.
Proof. vm_compute. repeat split. Qed.

Example ConceptList_of_string_identifier :
  ConceptList__init__ [VStr "0"] [[VInt 0; VStr "a"]; [VStr "0"; VStr "b"]] []
  = Some {| id := 0; extent := {[VStr "a"]}; intent := ∅ |}.
Proof.
  unfold ConceptList__init__. cbn [head mbind option_bind].
  assert (py_int (VStr "0") = Some 0) as -> by reflexivity.
  cbn [mbind option_bind].
  assert (select_by_id 0 [[VInt 0; VStr "a"]; [VStr "0"; VStr "b"]]
          = Some [VStr "a"]) as -> by reflexivity.
  cbn [select_by_id mbind option_bind].
  by rewrite list_to_set_cons, !list_to_set_nil, (right_id_L ∅ (∪)).
Qed.

Example repr_concept_zero :
  ConceptList__repr__ reverse_order
    {| id := 0; extent := {[VStr "b"; VStr "a"]};
       intent := {[VStr "c"; VStr "d"]} |}
  = Some "<0: {a,b} × {c,d}>".
Proof. vm_compute. reflexivity. Qed.

(** ** Concrete instances of the theorems *)

Lemma first_arg_only_first_argument_witness :
  _group_atoms first_arg_example = false ∧
  _as_pyasp first_arg_example = false ∧
  ∃ outs raised final,
    traverse elements_order (first_arg_only first_arg_example)
      = Some (outs, raised, final) ∧
    (if _sorted first_arg_example then True
     else raised = false ∧ length outs = length (_answers first_arg_example)) ∧
    Forall2 first_args_of
      (take (length outs) (_answers first_arg_example)) outs.
Proof.
  split; [reflexivity|]. split; [reflexivity|].
  apply (first_arg_only_first_argument elements_order first_arg_example);
    reflexivity.
Defined.


Example sorted_example_traversal :
  fst <$> traverse elements_order sorted_example
  = Some ([Mapping {["p" := Tuple [VTuple [VInt 1]; VTuple [VInt 2]]]}], false).
Proof. vm_compute. reflexivity. Qed.

Lemma sorted_determinism_witness :
  Forall2 (≡ₚ) (_answers sorted_example) [[("p", [VInt 1]); ("p", [VInt 2])]] ∧
  fst <$> traverse elements_order sorted_example =
    fst <$> traverse reverse_order
              (advance sorted_example [[("p", [VInt 1]); ("p", [VInt 2])]]).
Proof.
  assert (Forall2 (≡ₚ) (_answers sorted_example)
            [[("p", [VInt 1]); ("p", [VInt 2])]]) as H.
  { simpl. constructor; [apply Permutation_swap|constructor]. }
  split; [exact H|].
  apply (sorted_determinism elements_order reverse_order sorted_example _ H).
Defined.

Lemma sorted_flat_keeps_every_atom_witness :
  _group_atoms (with_flags true false false true) = false ∧
  ∃ l, Flat (Tuple [py_pair "p" (VInt 1); py_pair "p" (VInt 2);
                    py_pair "p" (VInt 2); py_pair "q" (VTuple [])])
         = Flat (Tuple l) ∧
       l ≡ₚ member_of (with_flags true false false true) <$> example_atoms ∧
       length l = length example_atoms ∧
       StronglySorted py_le l.
Proof.
  split; [reflexivity|].
  apply (sorted_flat_keeps_every_atom elements_order
           (with_flags true false false true) example_atoms).
  - reflexivity.
  - vm_compute. reflexivity.
Defined.

Lemma sorted_raises_iff_witness :
  loop_body elements_order true (with_flags false true false true)
            [("q", [VInt 1]); ("q", [VStr "a"])] = None ↔
  ∃ p args args',
    (p, args) ∈ [("q", [VInt 1]); ("q", [VStr "a"])] ∧
    (p, args') ∈ [("q", [VInt 1]); ("q", [VStr "a"])] ∧
    arg_repr false args ≠ arg_repr false args' ∧
    py_lt (arg_repr false args) (arg_repr false args') = None.
Proof.
  apply (sorted_raises_iff elements_order (with_flags false true false true)
           [("q", [VInt 1]); ("q", [VStr "a"])]).
  reflexivity.
Defined.

Lemma sorted_buckets_strictly_increase_witness :
  ∃ l, Tuple [VInt 1; VInt 2] = Tuple l ∧ strictly_increasing l.
Proof.
  assert (loop_body reverse_order true (with_flags true true false true)
            example_atoms
          = Some (Mapping
                    (<["q" := Tuple [VTuple []]]>
                       {["p" := Tuple [VInt 1; VInt 2]]})))
    as Hbody by (vm_compute; reflexivity).
  apply (sorted_buckets_strictly_increase _ _ _ _ Hbody "p").
  vm_compute. reflexivity.
Defined.

Lemma unsorted_reads_atoms_as_set_witness :
  loop_body elements_order false (with_flags false true false false)
            [("p", [VInt 1]); ("q", []); ("p", [VInt 1])]
  = loop_body elements_order false (with_flags false true false false)
              [("q", []); ("p", [VInt 1])].
Proof.
  apply (unsorted_reads_atoms_as_set elements_order).
  intros atom. rewrite !elem_of_cons. tauto.
Defined.

Lemma raise_closes_generator_witness :
  run elements_order (replicate 3 Pull)
      (__iter__ unsortable_then_fine) unsortable_then_fine
    = [Raised; StopIteration; StopIteration] ∧
  traverse elements_order unsortable_then_fine
    = Some ([], true, advance unsortable_then_fine [[("p", [])]]) ∧
  fst <$> traverse elements_order (advance unsortable_then_fine [[("p", [])]])
    = Some (yields elements_order (_sorted unsortable_then_fine)
              unsortable_then_fine [[("p", [])]]).1.
Proof.
  apply (raise_closes_generator elements_order 2 unsortable_then_fine
           [("q", [VInt 1]); ("q", [VStr "a"])] [[("p", [])]]).
  - reflexivity.
  - vm_compute. reflexivity.
Defined.

Lemma grouping_keeps_members_witness :
  element false "p" (VTuple [VInt 1; VInt 7])
    ∈ members (Tuple [py_pair "p" (VTuple [VInt 1; VInt 7]);
                      py_pair "p" (VTuple [VInt 2; VInt 5]);
                      py_pair "p" (VTuple [VInt 2; VInt 6]);
                      py_pair "q" (VTuple [])]) ↔
  ∃ bucket,
    (<["q" := Tuple [VTuple []]]>
       {["p" := Tuple [VTuple [VInt 1; VInt 7]; VTuple [VInt 2; VInt 5];
                       VTuple [VInt 2; VInt 6]]]}
     : gmap string container) !! "p" = Some bucket ∧
    wrap false "p" (VTuple [VInt 1; VInt 7]) ∈ members bucket.
Proof.
  apply (grouping_keeps_members elements_order true
           (with_flags false false false true) example_atoms).
  - reflexivity.
  - vm_compute. reflexivity.
  - vm_compute. reflexivity.
Defined.

Lemma one_generator_or_repeated_next_witness :
  run elements_order (replicate 3 Pull) (__iter__ sorted_example) sorted_example
    = (next_times elements_order 3 sorted_example).1.
Proof.
  apply (one_generator_or_repeated_next elements_order 3 sorted_example).
  repeat constructor. vm_compute. discriminate.
Defined.

Lemma ConceptList_init_selects_witness :
  id {| id := 0; extent := list_to_set [VStr "a"];
        intent := list_to_set [VStr "c"] |} = 0 ∧
  (∀ v, v ∈ extent {| id := 0; extent := list_to_set [VStr "a"];
                      intent := list_to_set [VStr "c"] |}
        ↔ [VInt 0; v] ∈ [[VInt 0; VStr "a"]; [VInt 1; VStr "b"]]) ∧
  (∀ v, v ∈ intent {| id := 0; extent := list_to_set [VStr "a"];
                      intent := list_to_set [VStr "c"] |}
        ↔ [VInt 0; v] ∈ [[VInt 0; VStr "c"]]).
Proof.
  apply (ConceptList_init_selects 0 []
           [[VInt 0; VStr "a"]; [VInt 1; VStr "b"]] [[VInt 0; VStr "c"]]).
  reflexivity.
Defined.

Lemma ConceptList_init_rows_as_sets_witness :
  ConceptList__init__ [VInt 0]
    [[VInt 0; VStr "a"]; [VInt 0; VStr "b"]; [VInt 0; VStr "a"]] []
  = ConceptList__init__ [VInt 0] [[VInt 0; VStr "b"]; [VInt 0; VStr "a"]] [].
Proof.
  apply (ConceptList_init_rows_as_sets [VInt 0]).
  - intros r. rewrite !elem_of_cons. tauto.
  - intros r. reflexivity.
Defined.
